(** * L402 client and paywall: a shallow embedding of @lnbot/l402

    The development follows the TypeScript sources:
    - [src/errors.ts]            the three error classes;
    - [src/server/headers.ts]    the header codec;
    - [src/types.ts]             tokens and options;
    - [src/client/store.ts]      the token stores;
    - [src/client/budget.ts]     the budget tracker;
    - [src/client/fetch.ts]      the L402-aware fetch and the JSON methods;
    - [src/server/middleware.ts] and [src/server/pricing.ts], the paywall.

    Modelling conventions.
    - A JavaScript string is a [string], a sequence of code units below
      256.  The codec only compares, slices and concatenates code units;
      [Headers] takes byte strings only, so that a header value with a
      code unit above 255, which [Headers.set] refuses like any other
      invalid value, is outside the model.
    - Amounts (satoshis) and clock readings (milliseconds) are integers,
      [Z]; the sources use JavaScript numbers, exact on the integers
      that occur here.
    - Awaited calls run to completion in program order: one call of the
      client or of the middleware is a sequential computation over the
      state of the client and of its environment. *)

From Stdlib Require Import ZArith String Ascii List Lia.
From stdpp Require Import base option strings gmap pretty.

Open Scope string_scope.
Open Scope Z_scope.

(** ** [src/errors.ts] *)

Module Errors.

(** The [name] of a thrown value.  [TypeError] is what the [Headers]
    class of the platform throws; [OtherError] stands for anything else
    the package does not throw itself (transport failures, SDK
    errors). *)
Inductive ErrorName :=
| L402Error
| L402BudgetExceededError
| L402PaymentFailedError
| TypeError
| OtherError.

Record Error := mkError { name : ErrorName; message : string }.

(** [e instanceof C] for the classes of the package:
    the two specific classes extend [L402Error]. *)
Definition instanceOf (e : Error) (cls : ErrorName) : bool :=
  match name e, cls with
  | L402Error, L402Error => true
  | L402BudgetExceededError, (L402Error | L402BudgetExceededError) => true
  | L402PaymentFailedError, (L402Error | L402PaymentFailedError) => true
  | _, _ => false
  end.

#[global] Instance ErrorName_eq_dec : EqDecision ErrorName.
Proof. solve_decision. Defined.

#[global] Instance Error_eq_dec : EqDecision Error.
Proof. solve_decision. Defined.

End Errors.
Export Errors.

(** ** JavaScript string primitives used by the codec *)

Module JsString.

(** [s.startsWith(p)] *)
Fixpoint startsWith (p s : string) : bool :=
  match p, s with
  | EmptyString, _ => true
  | String a p', String b s' => if Ascii.eqb a b then startsWith p' s' else false
  | String _ _, EmptyString => false
  end.

(** [s.slice(n)] for [0 <= n] *)
Fixpoint slice_from (n : nat) (s : string) : string :=
  match n, s with
  | O, _ => s
  | S n', String _ s' => slice_from n' s'
  | S _, EmptyString => EmptyString
  end.

(** [s.slice(0, n)] for [0 <= n] *)
Fixpoint slice_to (n : nat) (s : string) : string :=
  match n, s with
  | O, _ => EmptyString
  | S n', String a s' => String a (slice_to n' s')
  | S _, EmptyString => EmptyString
  end.

(** Position of the last occurrence of the character [c], if any. *)
Fixpoint last_index (c : ascii) (s : string) : option nat :=
  match s with
  | EmptyString => None
  | String a s' =>
      match last_index c s' with
      | Some i => Some (S i)
      | None => if Ascii.eqb a c then Some O else None
      end
  end.

(** [s.lastIndexOf(c)] for a one-character needle: [-1] when absent. *)
Definition lastIndexOf (c : ascii) (s : string) : Z :=
  match last_index c s with
  | Some i => Z.of_nat i
  | None => -1
  end.

(** [s.slice(start)] and [s.slice(0, end)] at integer positions that the
    codec only ever takes non-negative. *)
Definition slice (start : Z) (s : string) : string :=
  slice_from (Z.to_nat start) s.

Definition slice0 (stop : Z) (s : string) : string :=
  slice_to (Z.to_nat stop) s.

(** [c] occurs in [s]. *)
Fixpoint contains_char (c : ascii) (s : string) : bool :=
  match s with
  | EmptyString => false
  | String a s' => Ascii.eqb a c || contains_char c s'
  end.

(** [s.includes(sub)] as a proposition. *)
Definition includes (s sub : string) : Prop :=
  exists pre post, s = pre ++ sub ++ post.

(** [s.endsWith(suf)] as a proposition. *)
Definition endsWith (s suf : string) : Prop :=
  exists pre, s = pre ++ suf.

(** [s.toLowerCase()] on ASCII letters, as [Headers] does on names. *)
Definition lower_ascii (a : ascii) : ascii :=
  let n := nat_of_ascii a in
  if ((65 <=? n)%nat && (n <=? 90)%nat)%bool then ascii_of_nat (n + 32) else a.

Fixpoint toLowerCase (s : string) : string :=
  match s with
  | EmptyString => EmptyString
  | String a s' => String (lower_ascii a) (toLowerCase s')
  end.

(** A JavaScript string is truthy when it is not empty; [null] and
    [undefined] are falsy. *)
Definition truthy (s : string) : bool :=
  match s with EmptyString => false | _ => true end.

Definition if_truthy (o : option string) : option string :=
  match o with
  | Some s => if truthy s then Some s else None
  | None => None
  end.

End JsString.

(** ** [src/server/headers.ts] *)

Module Codec.
Import JsString.

Record Authorization := mkAuthorization
  { auth_macaroon : string; auth_preimage : string }.

Record Challenge := mkChallenge
  { ch_macaroon : string; ch_invoice : string }.

(** The double quote, code 34. *)
Definition quote : ascii := Eval cbv in ascii_of_nat 34.
Definition colon : ascii := ":"%char.

(** [parseAuthorization(header)] *)
Definition parseAuthorization (header : string) : option Authorization :=
  if negb (startsWith "L402 " header) then None
  else
    let token := slice 5 header in
    let colonIndex := lastIndexOf colon token in
    if colonIndex =? -1 then None
    else Some {| auth_macaroon := slice0 colonIndex token;
                 auth_preimage := slice (colonIndex + 1) token |}.

(** *** The two patterns of [parseChallenge]

    With Q for the double quote, [header.match(/key=Q([^Q]+)Q/)] looks
    for the leftmost position at which the literal [key=Q] is followed
    by one or more characters other than Q and then by Q; the group is
    that run of characters.  The run cannot be cut short by
    backtracking, because the character after a shorter run is not Q. *)

(** The text after the literal [lit] when [s] starts with it. *)
Fixpoint strip_literal (lit s : string) : option string :=
  match lit, s with
  | EmptyString, _ => Some s
  | String a lit', String b s' =>
      if Ascii.eqb a b then strip_literal lit' s' else None
  | String _ _, EmptyString => None
  end.

(** The longest prefix without a double quote, and what follows it. *)
Fixpoint span_unquoted (s : string) : string * string :=
  match s with
  | EmptyString => (EmptyString, EmptyString)
  | String a s' =>
      if Ascii.eqb a quote then (EmptyString, s)
      else let (run, rest) := span_unquoted s' in (String a run, rest)
  end.

(** A match of [lit([^Q]+)Q] anchored at the start of [s]. *)
Definition match_here (lit s : string) : option string :=
  match strip_literal lit s with
  | None => None
  | Some after =>
      match span_unquoted after with
      | (EmptyString, _) => None
      | (run, String a _) => if Ascii.eqb a quote then Some run else None
      | (_, EmptyString) => None
      end
  end.

(** The group of the leftmost match of [lit([^Q]+)Q] in [s]. *)
Fixpoint regex_group (lit s : string) : option string :=
  match match_here lit s with
  | Some g => Some g
  | None =>
      match s with
      | EmptyString => None
      | String _ s' => regex_group lit s'
      end
  end.

Definition macaroon_literal : string :=
  Eval cbv in "macaroon=" ++ String quote EmptyString.
Definition invoice_literal : string :=
  Eval cbv in "invoice=" ++ String quote EmptyString.

(** [parseChallenge(header)] *)
Definition parseChallenge (header : string) : option Challenge :=
  if negb (startsWith "L402 " header) then None
  else
    let macaroonMatch := regex_group macaroon_literal header in
    let invoiceMatch := regex_group invoice_literal header in
    match macaroonMatch, invoiceMatch with
    | Some m, Some i => Some {| ch_macaroon := m; ch_invoice := i |}
    | _, _ => None
    end.

(** [formatAuthorization(macaroon, preimage)] *)
Definition formatAuthorization (macaroon preimage : string) : string :=
  "L402 " ++ macaroon ++ ":" ++ preimage.

(** [formatChallenge(macaroon, invoice)] *)
Definition formatChallenge (macaroon invoice : string) : string :=
  "L402 macaroon=" ++ String quote macaroon ++ String quote ", invoice="
    ++ String quote invoice ++ String quote "".

End Codec.

Export Codec.

(** ** [src/types.ts] and the values exchanged with the platform *)

Module Types.

(** A JavaScript [Date]: a time value in milliseconds, or an invalid
    date, whose [getTime()] is [NaN]. *)
Inductive Date :=
| ValidDate (ms : Z)
| InvalidDate.

(** [d.getTime() <= now]; a comparison with [NaN] is false. *)
Definition getTime_le (d : Date) (now : Z) : bool :=
  match d with
  | ValidDate ms => ms <=? now
  | InvalidDate => false
  end.

(** [interface L402Token] *)
Record L402Token := mkToken
  { macaroon : string;
    preimage : string;
    authorization : string;
    paidAt : Date;
    expiresAt : option Date }.

Inductive BudgetPeriod := hour | day | week | month.

(** [interface L402ClientOptions]; the [store] option is the choice of
    the store implementation, see [resolveStore]. *)
Record L402ClientOptions := mkOptions
  { maxPrice : option Z;
    budgetSats : option Z;
    budgetPeriod : option BudgetPeriod }.

(** HTTP whitespace: tab, line feed, carriage return and space. *)
Definition HTAB : ascii := Eval cbv in ascii_of_nat 9.
Definition LF : ascii := Eval cbv in ascii_of_nat 10.
Definition CR : ascii := Eval cbv in ascii_of_nat 13.
Definition SP : ascii := Eval cbv in ascii_of_nat 32.
Definition NUL : ascii := Eval cbv in ascii_of_nat 0.

Definition is_http_whitespace (a : ascii) : bool :=
  Ascii.eqb a HTAB || Ascii.eqb a LF || Ascii.eqb a CR || Ascii.eqb a SP.

Fixpoint trim_start (s : string) : string :=
  match s with
  | EmptyString => EmptyString
  | String a s' => if is_http_whitespace a then trim_start s' else s
  end.

Fixpoint trim_end (s : string) : string :=
  match s with
  | EmptyString => EmptyString
  | String a s' =>
      match trim_end s' with
      | EmptyString => if is_http_whitespace a then EmptyString else String a EmptyString
      | r => String a r
      end
  end.

(** Normalizing a header value: leading and trailing HTTP whitespace
    is removed. *)
Definition headerValueNormalize (value : string) : string :=
  trim_end (trim_start value).

(** The last code unit of a string. *)
Fixpoint last_char (s : string) : option ascii :=
  match s with
  | EmptyString => None
  | String a EmptyString => Some a
  | String _ s' => last_char s'
  end.

Definition tab_or_space (o : option ascii) : bool :=
  match o with
  | Some a => Ascii.eqb a HTAB || Ascii.eqb a SP
  | None => false
  end.

(** A header value: no leading or trailing tab or space, and no NUL,
    line feed or carriage return anywhere. *)
Definition isValidHeaderValue (value : string) : bool :=
  negb (tab_or_space (match value with String a _ => Some a | EmptyString => None end))
  && negb (tab_or_space (last_char value))
  && negb (JsString.contains_char NUL value)
  && negb (JsString.contains_char LF value)
  && negb (JsString.contains_char CR value).

(** A header name: a non-empty token. *)
Definition is_tchar (a : ascii) : bool :=
  let n := nat_of_ascii a in
  ((n =? 33) || ((35 <=? n) && (n <=? 39)) || (n =? 42) || (n =? 43)
   || (n =? 45) || (n =? 46) || ((48 <=? n) && (n <=? 57))
   || ((65 <=? n) && (n <=? 90)) || ((94 <=? n) && (n <=? 122))
   || (n =? 124) || (n =? 126))%nat.

Fixpoint all_tchar (s : string) : bool :=
  match s with
  | EmptyString => true
  | String a s' => is_tchar a && all_tchar s'
  end.

Definition isValidHeaderName (name : string) : bool :=
  JsString.truthy name && all_tchar name.

(** A [Headers] object: names are case-insensitive, the map is keyed by
    the lower-case name.

    [headers.set(name, value)]: the value is normalized, then name and
    value are validated, and an invalid one makes the call throw a
    [TypeError]; otherwise the entry of that name is replaced.  The
    message of the error differs between platforms; a fixed text stands
    for it here, and no statement depends on it. *)
Definition Headers_set (name value : string) (h : gmap string string)
  : Error + gmap string string :=
  let value := headerValueNormalize value in
  if negb (isValidHeaderName name) then
    inl (mkError TypeError "Invalid header name")
  else if negb (isValidHeaderValue value) then
    inl (mkError TypeError "Invalid header value")
  else inr (<[JsString.toLowerCase name := value]> h).

Definition Headers_get (name : string) (h : gmap string string)
  : option string :=
  h !! JsString.toLowerCase name.

(** [RequestInit], with the members a caller of the client sets;
    [init_headers] is what [new Headers(init.headers)] holds, keyed by
    lower-case names, empty when the member is absent. *)
Record RequestInit := mkInit
  { init_method : option string;
    init_headers : gmap string string;
    init_body : option string }.

(** [new Headers(init?.headers)] *)
Definition Headers_new (init : option RequestInit) : gmap string string :=
  match init with
  | Some i => init_headers i
  | None => ∅
  end.

(** [{ ...init, headers }] *)
Definition with_headers (init : option RequestInit)
    (headers : gmap string string) : RequestInit :=
  match init with
  | Some i => {| init_method := init_method i;
                 init_headers := headers;
                 init_body := init_body i |}
  | None => {| init_method := None; init_headers := headers; init_body := None |}
  end.

(** What the client reads in the JSON body of a 402 response:
    [body_price] is [body.price], an integer number of satoshis, when it
    is there ([null] and a missing member are both [None]);
    [body_expiresAt] is [new Date(body.expiresAt)] when [body.expiresAt]
    is truthy. *)
Record Body := mkBody
  { body_price : option Z;
    body_expiresAt : option Date }.

(** A [Response]: [resp_json] is what [res.json()] resolves to, [None]
    when it rejects or does not yield an object. *)
Record Response := mkResponse
  { status : Z;
    resp_headers : gmap string string;
    resp_json : option Body;
    resp_text : string }.

(** The result of [ln.l402.pay]: the members the client reads. *)
Record Payment := mkPayment
  { pay_authorization : option string;
    pay_preimage : option string;
    pay_amount : option Z;
    pay_status : string }.

(** The result of [ln.l402.verify]. *)
Record VerifyResult := mkVerify
  { valid : bool;
    v_paymentHash : option string;
    v_caveats : option (list string);
    v_error : option string }.

(** The argument and the result of [ln.l402.createChallenge]. *)
Record ChallengeRequest := mkChallengeRequest
  { cr_amount : Z;
    cr_description : option string;
    cr_expirySeconds : option Z;
    cr_caveats : option (list string) }.

Record ChallengeResponse := mkChallengeResponse
  { c_macaroon : string;
    c_invoice : string;
    c_wwwAuthenticate : string }.

(** The outcome of a call that may throw. *)
Inductive Result (A : Type) :=
| Ok (a : A)
| Throw (e : Error).
Arguments Ok {A} a.
Arguments Throw {A} e.

End Types.
Export Types.

(** ** The platform: clock, network and the ln.bot SDK

    The collaborators are deterministic transformers of an environment
    state [E]; every sequence of answers they can give is one choice of
    [E] and of the operations.  A call that rejects returns [inl]. *)

Class Clock (E : Type) := { Date_now : E -> Z * E }.

Class Fetcher (E : Type) :=
  { globalThis_fetch : string -> option RequestInit -> E -> (Error + Response) * E }.

Class LnBot (E : Type) :=
  { l402_pay : string -> E -> (Error + Payment) * E;
    l402_verify : string -> E -> (Error + VerifyResult) * E;
    l402_createChallenge : ChallengeRequest -> E -> (Error + ChallengeResponse) * E }.

(** The parts of the WHATWG [URL] class that [normalizeUrl] uses. *)
Class UrlApi :=
  { URL : Type;
    URL_new : string -> option URL;
    URL_set_search : string -> URL -> URL;
    URL_set_hash : string -> URL -> URL;
    URL_toString : URL -> string }.

(** [res.json()]: the parsed body, a value of [J], or a rejection. *)
Class JsonBody (J : Type) := { Response_json : Response -> Error + J }.

(** ** [src/client/store.ts] *)

Module Store.

(** [s.replace(/\/+$/, "")]: the trailing run of slashes is removed. *)
Fixpoint strip_trailing_slashes (s : string) : string :=
  match s with
  | EmptyString => EmptyString
  | String a s' =>
      match strip_trailing_slashes s' with
      | EmptyString => if Ascii.eqb a "/"%char then EmptyString else String a EmptyString
      | r => String a r
      end
  end.

(** [normalizeUrl(url)] *)
Definition normalizeUrl `{UrlApi} (url : string) : string :=
  match URL_new url with
  | Some u =>
      strip_trailing_slashes
        (URL_toString (URL_set_hash "" (URL_set_search "" u)))
  | None => url
  end.

(** [interface TokenStore]; the operations of a store are total. *)
Class TokenStore (S : Type) :=
  { ts_get : string -> S -> option L402Token * S;
    ts_set : string -> L402Token -> S -> S;
    ts_delete : string -> S -> S }.

(** [class MemoryStore] *)
Record MemoryStore := mkMemoryStore { tokens : gmap string L402Token }.

#[global] Instance MemoryStore_TokenStore `{UrlApi} : TokenStore MemoryStore :=
  {| ts_get url m := (tokens m !! normalizeUrl url, m);
     ts_set url token m := mkMemoryStore (<[normalizeUrl url := token]> (tokens m));
     ts_delete url m := mkMemoryStore (delete (normalizeUrl url) (tokens m)) |}.

(** [class NoStore] *)
Inductive NoStore := mkNoStore.

#[global] Instance NoStore_TokenStore : TokenStore NoStore :=
  {| ts_get _ s := (None, s);
     ts_set _ _ s := s;
     ts_delete _ s := s |}.

(** The [store] option and [resolveStore(store)]. *)
Inductive StoreOption (C : Type) :=
| store_memory
| store_none
| store_custom (c : C).
Arguments store_memory {C}.
Arguments store_none {C}.
Arguments store_custom {C} c.

Inductive ResolvedStore (C : Type) :=
| UseMemory (m : MemoryStore)
| UseNone (n : NoStore)
| UseCustom (c : C).
Arguments UseMemory {C} m.
Arguments UseNone {C} n.
Arguments UseCustom {C} c.

Definition resolveStore {C} (store : option (StoreOption C)) : ResolvedStore C :=
  match store with
  | None | Some store_memory => UseMemory (mkMemoryStore ∅)
  | Some store_none => UseNone mkNoStore
  | Some (store_custom c) => UseCustom c
  end.

#[global] Instance ResolvedStore_TokenStore `{UrlApi} {C} `{TokenStore C}
  : TokenStore (ResolvedStore C) :=
  {| ts_get url s :=
       match s with
       | UseMemory m => let (r, m') := ts_get url m in (r, UseMemory m')
       | UseNone n => let (r, n') := ts_get url n in (r, UseNone n')
       | UseCustom c => let (r, c') := ts_get url c in (r, UseCustom c')
       end;
     ts_set url token s :=
       match s with
       | UseMemory m => UseMemory (ts_set url token m)
       | UseNone n => UseNone (ts_set url token n)
       | UseCustom c => UseCustom (ts_set url token c)
       end;
     ts_delete url s :=
       match s with
       | UseMemory m => UseMemory (ts_delete url m)
       | UseNone n => UseNone (ts_delete url n)
       | UseCustom c => UseCustom (ts_delete url c)
       end |}.

End Store.
Export Store.

(** ** [src/client/budget.ts] *)

Module BudgetTs.

Definition PERIOD_MS (p : BudgetPeriod) : Z :=
  match p with
  | hour => 60 * 60 * 1000
  | day => 24 * 60 * 60 * 1000
  | week => 7 * 24 * 60 * 60 * 1000
  | month => 30 * 24 * 60 * 60 * 1000
  end.

(** The fields of [class Budget]. *)
Record Budget := mkBudget
  { spent : Z;
    periodStart : Z;
    totalSats : option Z;
    periodMs : option Z }.

Section WithClock.
Context {E : Type} `{Clock E}.

(** [new Budget(options)] *)
Definition new_Budget (options : L402ClientOptions) (e : E) : Budget * E :=
  let (t, e1) := Date_now e in
  ({| spent := 0;
      periodStart := t;
      totalSats := budgetSats options;
      periodMs := PERIOD_MS <$> budgetPeriod options |}, e1).

(** [maybeReset()]: the clock is read once for the test and once more
    for the new period start; it is not read without a period. *)
Definition maybeReset (b : Budget) (e : E) : Budget * E :=
  match periodMs b with
  | None => (b, e)
  | Some p =>
      if p =? 0 then (b, e)
      else
        let (t, e1) := Date_now e in
        if t - periodStart b >=? p then
          let (t', e2) := Date_now e1 in
          ({| spent := 0; periodStart := t';
              totalSats := totalSats b; periodMs := periodMs b |}, e2)
        else (b, e1)
  end.

(** The test of [maybeReset]: a period is set and has elapsed. *)
Definition period_elapsed (b : Budget) (e : E) : bool :=
  match periodMs b with
  | None => false
  | Some p => negb (p =? 0) && (fst (Date_now e) - periodStart b >=? p)
  end.

Definition exceed_message (price spent total : Z) : string :=
  "Payment of " ++ pretty price ++ " sats would exceed budget ("
    ++ pretty spent ++ "/" ++ pretty total ++ " sats spent)".

(** [check(price)] *)
Definition check (price : Z) (b : Budget) (e : E) : Result unit * Budget * E :=
  match totalSats b with
  | None => (Ok tt, b, e)
  | Some total =>
      let (b1, e1) := maybeReset b e in
      if spent b1 + price >? total then
        (Throw (mkError L402BudgetExceededError
                  (exceed_message price (spent b1) total)), b1, e1)
      else (Ok tt, b1, e1)
  end.

(** [record(price)] *)
Definition record (price : Z) (b : Budget) (e : E) : Budget * E :=
  let (b1, e1) := maybeReset b e in
  ({| spent := spent b1 + price; periodStart := periodStart b1;
      totalSats := totalSats b1; periodMs := periodMs b1 |}, e1).

End WithClock.

End BudgetTs.
Export BudgetTs.

(** ** Computations that return or throw, update a state and log calls *)

Module Effect.

(** A computation over a state [Σ] with log entries [Ev]: an [await]ed
    sequence of calls.  A [throw] keeps the state changes made so far. *)
Definition M (Σ Ev A : Type) : Type := Σ -> Result A * Σ * list Ev.

Section Ops.
Context {Σ Ev : Type}.

Definition ret {A} (a : A) : M Σ Ev A := fun st => (Ok a, st, []).

Definition throw {A} (e : Error) : M Σ Ev A := fun st => (Throw e, st, []).

Definition bind {A B} (m : M Σ Ev A) (f : A -> M Σ Ev B) : M Σ Ev B :=
  fun st =>
    let '(r, st1, l1) := m st in
    match r with
    | Ok a => let '(r2, st2, l2) := f a st1 in (r2, st2, (l1 ++ l2)%list)
    | Throw e => (Throw e, st1, l1)
    end.

(** [try { m } catch (err) { h(err) }] *)
Definition try_catch {A} (m : M Σ Ev A) (h : Error -> M Σ Ev A) : M Σ Ev A :=
  fun st =>
    let '(r, st1, l1) := m st in
    match r with
    | Ok a => (Ok a, st1, l1)
    | Throw e => let '(r2, st2, l2) := h e st1 in (r2, st2, (l1 ++ l2)%list)
    end.

(** [wp m st Q]: the run of [m] from [st] ends in an outcome, a state
    and a log that satisfy [Q]. *)
Definition wp {A} (m : M Σ Ev A) (st : Σ)
    (Q : Result A -> Σ -> list Ev -> Prop) : Prop :=
  let '(r, st1, l) := m st in Q r st1 l.

End Ops.

Declare Scope effect_scope.
Delimit Scope effect_scope with effect.
Notation "x <- m ;; k" := (bind m (fun x => k))
  (at level 100, m at next level, right associativity) : effect_scope.
Notation "m ;; k" := (bind m (fun _ => k))
  (at level 100, right associativity) : effect_scope.

End Effect.
Export Effect.

(** ** [src/client/fetch.ts] *)

Module Client.

(** The calls a run makes to the store, to the network and to the payer,
    in order and with their answers: what the mocks of the test suite
    record ([mock.calls], [toHaveBeenCalledTimes]). *)
Inductive Event :=
| EvStoreGet (url : string) (r : option L402Token)
| EvStoreSet (url : string) (token : L402Token)
| EvStoreDelete (url : string)
| EvFetch (url : string) (init : option RequestInit) (r : Error + Response)
| EvPay (wwwAuthenticate : string) (r : Error + Payment).

(** The state a client closes over ([store], [budget]) and its
    environment. *)
Record ClientState (S E : Type) := mkState
  { st_store : S;
    st_budget : Budget;
    st_env : E }.
Arguments mkState {S E} _ _ _.
Arguments st_store {S E} _.
Arguments st_budget {S E} _.
Arguments st_env {S E} _.

(** A computation of the client. *)
Abbreviation CM S E := (M (ClientState S E) Event).

Section WithPlatform.
Context {S E : Type} `{TokenStore S} `{Clock E} `{Fetcher E} `{LnBot E}.

(** [await store.get(url)], [await store.set(url, token)],
    [await store.delete(url)] *)
Definition storeGet (url : string) : CM S E (option L402Token) :=
  fun st =>
    let (r, s1) := ts_get url (st_store st) in
    (Ok r, mkState s1 (st_budget st) (st_env st), [EvStoreGet url r]).

Definition storeSet (url : string) (token : L402Token) : CM S E unit :=
  fun st =>
    (Ok tt, mkState (ts_set url token (st_store st)) (st_budget st) (st_env st),
     [EvStoreSet url token]).

Definition storeDelete (url : string) : CM S E unit :=
  fun st =>
    (Ok tt, mkState (ts_delete url (st_store st)) (st_budget st) (st_env st),
     [EvStoreDelete url]).

(** [Date.now()] *)
Definition dateNow : CM S E Z :=
  fun st =>
    let (t, e1) := Date_now (st_env st) in
    (Ok t, mkState (st_store st) (st_budget st) e1, []).

(** [await globalThis.fetch(url, init)] *)
Definition fetch (url : string) (init : option RequestInit) : CM S E Response :=
  fun st =>
    let (r, e1) := globalThis_fetch url init (st_env st) in
    (match r with inl err => Throw err | inr res => Ok res end,
     mkState (st_store st) (st_budget st) e1, [EvFetch url init r]).

(** [await ln.l402.pay({ wwwAuthenticate })] *)
Definition pay (wwwAuthenticate : string) : CM S E Payment :=
  fun st =>
    let (r, e1) := l402_pay wwwAuthenticate (st_env st) in
    (match r with inl err => Throw err | inr p => Ok p end,
     mkState (st_store st) (st_budget st) e1, [EvPay wwwAuthenticate r]).

(** [budget.check(price)] and [budget.record(price)] *)
Definition budgetCheck (price : Z) : CM S E unit :=
  fun st =>
    let '(r, b1, e1) := check price (st_budget st) (st_env st) in
    (r, mkState (st_store st) b1 e1, []).

Definition budgetRecord (price : Z) : CM S E unit :=
  fun st =>
    let (b1, e1) := record price (st_budget st) (st_env st) in
    (Ok tt, mkState (st_store st) b1 e1, []).

(** [headers.set(name, value)] on the [Headers] object [h]; the result
    is the object after the call. *)
Definition headersSet (name value : string) (h : gmap string string)
  : CM S E (gmap string string) :=
  fun st =>
    (match Headers_set name value h with
     | inl err => Throw err
     | inr h' => Ok h'
     end, st, []).

End WithPlatform.

Section Fetch.
Context {S E : Type} `{TokenStore S} `{Clock E} `{Fetcher E} `{LnBot E}.
Open Scope effect_scope.

Definition price_message (price maxPrice : Z) : string :=
  "Price " ++ pretty price ++ " sats exceeds maxPrice " ++ pretty maxPrice.

(** [{ ...init, headers }] once [headers.set("Authorization", value)]
    has returned on [new Headers(init?.headers)]: the value is stored
    without its leading and trailing whitespace. *)
Definition with_authorization (init : option RequestInit) (value : string)
  : option RequestInit :=
  Some (with_headers init
          (<["authorization" := headerValueNormalize value]> (Headers_new init))).

(** Step 1 of [l402Fetch]: the token cache.  [Some res] is the early
    [return res] of a cache hit; [None] falls through to step 2. *)
Definition cachedRequest (url : string) (init : option RequestInit)
  : CM S E (option Response) :=
  cached <- storeGet url ;;
  match cached with
  | Some cached =>
      isExpired <-
        match expiresAt cached with
        | Some d => now <- dateNow ;; ret (getTime_le d now)
        | None => ret false
        end ;;
      if negb isExpired then
        headers <- headersSet "Authorization" (authorization cached)
                     (Headers_new init) ;;
        res <- fetch url (Some (with_headers init headers)) ;;
        (* If the cached token was rejected, fall through *)
        if negb (status res =? 402) then ret (Some res)
        else (storeDelete url ;; ret None)
      else (storeDelete url ;; ret None)
  | None => ret None
  end.

(** Steps 2 to 7 of [l402Fetch], in the current revision of the file
    (the one whose client also has [put], [patch] and [delete]). *)
Definition paidRequest (maxPrice : Z) (url : string) (init : option RequestInit)
  : CM S E Response :=
  (* Step 2: Make request without auth *)
  res <- fetch url init ;;
  if negb (status res =? 402) then ret res
  else
    (* Step 3: Parse the 402 challenge *)
    match JsString.if_truthy (Headers_get "www-authenticate" (resp_headers res)) with
    | None =>
        throw (mkError L402Error "402 response missing WWW-Authenticate header")
    | Some wwwAuth =>
        match parseChallenge wwwAuth with
        | None => throw (mkError L402Error "Could not parse L402 challenge")
        | Some challenge =>
            let body := resp_json res in
            let price := default 0 (body ≫= body_price) in
            (* Step 4: Budget checks *)
            if price >? maxPrice then
              throw (mkError L402BudgetExceededError (price_message price maxPrice))
            else
              budgetCheck price ;;
              (* Step 5: Pay via SDK *)
              payment <- pay wwwAuth ;;
              if String.eqb (pay_status payment) "failed" then
                throw (mkError L402PaymentFailedError "L402 payment failed")
              else
                match JsString.if_truthy (pay_authorization payment) with
                | None =>
                    throw (mkError L402PaymentFailedError
                             "Payment did not return authorization token")
                | Some auth =>
                    (* Step 6: Cache the token *)
                    let parsed := parseAuthorization auth in
                    paidAt <- dateNow ;;
                    storeSet url
                      {| macaroon :=
                           default (ch_macaroon challenge) (auth_macaroon <$> parsed);
                         preimage :=
                           default (default "" (auth_preimage <$> parsed))
                             (pay_preimage payment);
                         authorization := auth;
                         paidAt := ValidDate paidAt;
                         expiresAt := body ≫= body_expiresAt |} ;;
                    budgetRecord (default price (pay_amount payment)) ;;
                    (* Step 7: Retry with L402 Authorization *)
                    retryHeaders <- headersSet "Authorization" auth
                                      (Headers_new init) ;;
                    retry <- fetch url (Some (with_headers init retryHeaders)) ;;
                    if status retry =? 402 then
                      throw (mkError L402PaymentFailedError
                               "Server returned 402 after successful payment")
                    else ret retry
                end
        end
    end.

(** [l402Fetch(url, init)] of the client built by [client(ln, options)]. *)
Definition l402Fetch (options : L402ClientOptions)
    (url : string) (init : option RequestInit) : CM S E Response :=
  let maxPrice := default 1000 (maxPrice options) in
  answered <- cachedRequest url init ;;
  match answered with
  | Some res => ret res
  | None => paidRequest maxPrice url init
  end.

(** The earlier revision of [l402Fetch] that the file also holds (the
    client with [get] and [post] only).  Step 1 is the same; steps 2
    to 7 differ in three places: the per-request ceiling throws a plain
    [L402Error], [budget.record] receives the price hint, and the
    response of the retry is returned whatever its status. *)
Definition paidRequest_rev1 (maxPrice : Z) (url : string)
    (init : option RequestInit) : CM S E Response :=
  res <- fetch url init ;;
  if negb (status res =? 402) then ret res
  else
    match JsString.if_truthy (Headers_get "www-authenticate" (resp_headers res)) with
    | None =>
        throw (mkError L402Error "402 response missing WWW-Authenticate header")
    | Some wwwAuth =>
        match parseChallenge wwwAuth with
        | None => throw (mkError L402Error "Could not parse L402 challenge")
        | Some challenge =>
            let body := resp_json res in
            let price := default 0 (body ≫= body_price) in
            if price >? maxPrice then
              throw (mkError L402Error (price_message price maxPrice))
            else
              budgetCheck price ;;
              payment <- pay wwwAuth ;;
              if String.eqb (pay_status payment) "failed" then
                throw (mkError L402PaymentFailedError "L402 payment failed")
              else
                match JsString.if_truthy (pay_authorization payment) with
                | None =>
                    throw (mkError L402PaymentFailedError
                             "Payment did not return authorization token")
                | Some auth =>
                    let parsed := parseAuthorization auth in
                    paidAt <- dateNow ;;
                    storeSet url
                      {| macaroon :=
                           default (ch_macaroon challenge) (auth_macaroon <$> parsed);
                         preimage :=
                           default (default "" (auth_preimage <$> parsed))
                             (pay_preimage payment);
                         authorization := auth;
                         paidAt := ValidDate paidAt;
                         expiresAt := body ≫= body_expiresAt |} ;;
                    budgetRecord price ;;
                    retryHeaders <- headersSet "Authorization" auth
                                      (Headers_new init) ;;
                    fetch url (Some (with_headers init retryHeaders))
                end
        end
    end.

Definition l402Fetch_rev1 (options : L402ClientOptions)
    (url : string) (init : option RequestInit) : CM S E Response :=
  let maxPrice := default 1000 (maxPrice options) in
  answered <- cachedRequest url init ;;
  match answered with
  | Some res => ret res
  | None => paidRequest_rev1 maxPrice url init
  end.

(** [client(ln, options)]: the state the returned client closes over.
    [store] is the resolved store. *)
Definition client (options : L402ClientOptions) (store : S) (e : E)
  : ClientState S E :=
  let (b, e1) := new_Budget options e in
  mkState store b e1.

End Fetch.

End Client.
Export Client.

(** ** The JSON methods of the client, [src/client/fetch.ts] *)

Module Methods.

Section WithPlatform.
Context {S E J : Type} `{TokenStore S} `{Clock E} `{Fetcher E} `{LnBot E}
  `{JsonBody J}.
Open Scope effect_scope.

(** [{ ...init, method }] *)
Definition with_method (init : option RequestInit) (method : string)
  : option RequestInit :=
  Some match init with
       | Some i => {| init_method := Some method;
                      init_headers := init_headers i;
                      init_body := init_body i |}
       | None => {| init_method := Some method;
                    init_headers := ∅;
                    init_body := None |}
       end.

(** [res.json()] *)
Definition json (res : Response) : CM S E J :=
  fun st =>
    (match Response_json res with inl err => Throw err | inr v => Ok v end, st, []).

(** [jsonMethod(method, url, init)] *)
Definition jsonMethod (options : L402ClientOptions) (method : string)
    (url : string) (init : option RequestInit) : CM S E J :=
  res <- l402Fetch options url (with_method init method) ;;
  json res.

(** The methods of the client returned by [client(ln, options)]. *)
Definition get (options : L402ClientOptions) (url : string)
    (init : option RequestInit) : CM S E J :=
  jsonMethod options "GET" url init.

Definition post (options : L402ClientOptions) (url : string)
    (init : option RequestInit) : CM S E J :=
  jsonMethod options "POST" url init.

Definition put (options : L402ClientOptions) (url : string)
    (init : option RequestInit) : CM S E J :=
  jsonMethod options "PUT" url init.

Definition patch (options : L402ClientOptions) (url : string)
    (init : option RequestInit) : CM S E J :=
  jsonMethod options "PATCH" url init.

Definition delete (options : L402ClientOptions) (url : string)
    (init : option RequestInit) : CM S E J :=
  jsonMethod options "DELETE" url init.

End WithPlatform.

End Methods.

(** ** [src/server/pricing.ts] and [src/server/middleware.ts] *)

Module Paywall.

(** [interface L402RequestData] *)
Record L402RequestData := mkRequestData
  { paymentHash : option string;
    caveats : option (list string) }.

(** An Express request: the members the middleware reads and writes. *)
Record Request := mkRequest
  { req_headers : gmap string string;
    req_path : string;
    req_l402 : option L402RequestData }.

(** The JSON body of the 402 response. *)
Record PaymentRequired := mkPaymentRequired
  { pr_type : string;
    pr_title : string;
    pr_detail : string;
    pr_invoice : string;
    pr_macaroon : string;
    pr_price : Z;
    pr_unit : string;
    pr_description : option string }.

(** The calls of the middleware: to the SDK, to [next], and on [res]. *)
Inductive Event :=
| EvVerify (authorization : string) (r : Error + VerifyResult)
| EvCreateChallenge (args : ChallengeRequest) (r : Error + ChallengeResponse)
| EvNext (err : option Error)
| EvRespond (status : Z) (header : string * string) (body : PaymentRequired).

(** Express's [next]: the rest of the stack runs, and may throw. *)
Class NextFunction (E : Type) :=
  { express_next : option Error -> E -> option Error * E }.

(** [type PricingFn]: a function of the request, possibly asynchronous,
    that may throw. *)
Definition PricingFn (E : Type) : Type := Request -> E -> (Error + Z) * E.

(** [interface L402PaywallOptions] *)
Record L402PaywallOptions (E : Type) := mkPaywallOptions
  { price : Z + PricingFn E;
    description : option string;
    expirySeconds : option Z;
    opt_caveats : option (list string) }.
Arguments price {E} _.
Arguments description {E} _.
Arguments expirySeconds {E} _.
Arguments opt_caveats {E} _.

(** A computation of the middleware, over the request and the
    environment. *)
Abbreviation PM E := (M (Request * E) Event).

Section Middleware.
Context {E : Type} `{LnBot E} `{NextFunction E}.
Open Scope effect_scope.

(** [resolvePrice(price, req)] *)
Definition resolvePrice (price : Z + PricingFn E) : PM E Z :=
  match price with
  | inl n => ret n
  | inr f =>
      fun st =>
        let (r, e1) := f (fst st) (snd st) in
        (match r with inl err => Throw err | inr n => Ok n end, (fst st, e1), [])
  end.

(** [await ln.l402.verify({ authorization })] *)
Definition verify (authorization : string) : PM E VerifyResult :=
  fun st =>
    let (r, e1) := l402_verify authorization (snd st) in
    (match r with inl err => Throw err | inr v => Ok v end,
     (fst st, e1), [EvVerify authorization r]).

(** [await ln.l402.createChallenge(args)] *)
Definition createChallenge (args : ChallengeRequest) : PM E ChallengeResponse :=
  fun st =>
    let (r, e1) := l402_createChallenge args (snd st) in
    (match r with inl err => Throw err | inr c => Ok c end,
     (fst st, e1), [EvCreateChallenge args r]).

(** [next()] and [next(err)] *)
Definition next (err : option Error) : PM E unit :=
  fun st =>
    let (r, e1) := express_next err (snd st) in
    (match r with Some thrown => Throw thrown | None => Ok tt end,
     (fst st, e1), [EvNext err]).

(** [req.l402 = data] *)
Definition set_l402 (data : L402RequestData) : PM E unit :=
  fun st =>
    (Ok tt,
     ({| req_headers := req_headers (fst st);
         req_path := req_path (fst st);
         req_l402 := Some data |}, snd st), []).

(** [res.status(code).header(name, value).json(body)] *)
Definition respond (code : Z) (header : string * string)
    (body : PaymentRequired) : PM E unit :=
  fun st => (Ok tt, st, [EvRespond code header body]).

(** Steps 3 and 4 of the middleware: no valid token, so a challenge is
    minted and sent with status 402. *)
Definition issueChallenge (options : L402PaywallOptions E) : PM E unit :=
  price <- resolvePrice (price options) ;;
  try_catch
    (challenge <- createChallenge
                    {| cr_amount := price;
                       cr_description := description options;
                       cr_expirySeconds := expirySeconds options;
                       cr_caveats := opt_caveats options |} ;;
     respond 402 ("WWW-Authenticate", c_wwwAuthenticate challenge)
       {| pr_type := "payment_required";
          pr_title := "Payment Required";
          pr_detail :=
            "Pay the included Lightning invoice to access this resource.";
          pr_invoice := c_invoice challenge;
          pr_macaroon := c_macaroon challenge;
          pr_price := price;
          pr_unit := "satoshis";
          pr_description := description options |})
    (fun err => next (Some err)).

(** The middleware returned by [paywall(ln, options)], applied to
    [(req, res, next)].  The boolean of steps 1 and 2 tells whether the
    middleware returned from inside the [try] block. *)
Definition paywall (options : L402PaywallOptions E) : PM E unit :=
  fun st =>
    let req := fst st in
    (* Step 1: Check for existing L402 Authorization header *)
    let authHeader := req_headers req !! "authorization" in
    (returned <-
       match JsString.if_truthy authHeader with
       | Some authHeader =>
           if JsString.startsWith "L402 " authHeader then
             (* Step 2: Verify via SDK *)
             try_catch
               (result <- verify authHeader ;;
                if valid result then
                  set_l402 {| paymentHash := v_paymentHash result;
                              caveats := v_caveats result |} ;;
                  next None ;;
                  ret true
                else ret false)
               (fun _ => ret false)
           else ret false
       | None => ret false
       end ;;
     if returned : bool then ret tt
     else
       (* Step 3: No valid token — create a challenge via SDK *)
       issueChallenge options) st.

End Middleware.

End Paywall.

(** ** A scripted platform, as the test suite mocks it

    The clock shows a fixed time; [fetch], [pay], [verify] and
    [createChallenge] answer from queues, like [mockResolvedValueOnce];
    an exhausted queue rejects. *)

Module Mock.

Record Env := mkEnv
  { now : Z;
    responses : list (Error + Response);
    payments : list (Error + Payment);
    verifications : list (Error + VerifyResult);
    challenges : list (Error + ChallengeResponse) }.

Definition exhausted : Error := mkError OtherError "mock exhausted".

#[global] Instance Env_Clock : Clock Env :=
  {| Date_now e := (now e, e) |}.

#[global] Instance Env_Fetcher : Fetcher Env :=
  {| globalThis_fetch _ _ e :=
       match responses e with
       | r :: rest =>
           (r, mkEnv (now e) rest (payments e) (verifications e) (challenges e))
       | [] => (inl exhausted, e)
       end |}.

#[global] Instance Env_LnBot : LnBot Env :=
  {| l402_pay _ e :=
       match payments e with
       | r :: rest =>
           (r, mkEnv (now e) (responses e) rest (verifications e) (challenges e))
       | [] => (inl exhausted, e)
       end;
     l402_verify _ e :=
       match verifications e with
       | r :: rest =>
           (r, mkEnv (now e) (responses e) (payments e) rest (challenges e))
       | [] => (inl exhausted, e)
       end;
     l402_createChallenge _ e :=
       match challenges e with
       | r :: rest =>
           (r, mkEnv (now e) (responses e) (payments e) (verifications e) rest)
       | [] => (inl exhausted, e)
       end |}.

#[global] Instance Env_Next : Paywall.NextFunction Env :=
  {| Paywall.express_next _ e := (None, e) |}.

(** A small [URL]: the text before the first [?] or [#], kept apart
    from the search and the hash; only [http] URLs parse. *)
Fixpoint split_at (c : ascii) (s : string) : string * string :=
  match s with
  | EmptyString => (EmptyString, EmptyString)
  | String a s' =>
      if Ascii.eqb a c then (EmptyString, s)
      else let (l, r) := split_at c s' in (String a l, r)
  end.

#[global] Instance Simple_UrlApi : UrlApi :=
  {| URL := string * string * string;
     URL_new s :=
       if JsString.startsWith "http" s then
         let (rest, hash) := split_at "#"%char s in
         let (base, search) := split_at "?"%char rest in
         Some (base, search, hash)
       else None;
     URL_set_search v u := (fst (fst u), v, snd u);
     URL_set_hash v u := (fst (fst u), snd (fst u), v);
     URL_toString u := fst (fst u) ++ snd (fst u) ++ snd u |}.

Definition URL_PREMIUM : string := "https://api.example.com/premium/data".

Definition wwwAuth : string := formatChallenge "mac" "inv".

(** [jsonResponse(status, body, headers)] of the client tests. *)
Definition jsonResponse (status : Z) (body : option Body)
    (headers : list (string * string)) : Response :=
  {| status := status;
     resp_headers := list_to_map headers;
     resp_json := body;
     resp_text := "" |}.

Definition challenge402 (price : Z) : Response :=
  jsonResponse 402 (Some (mkBody (Some price) None))
    [("www-authenticate", wwwAuth)].

Definition ok200 : Response := jsonResponse 200 None [].

Definition settled (amount : Z) : Payment :=
  {| pay_authorization := Some "L402 mac:pre";
     pay_preimage := Some "pre";
     pay_amount := Some amount;
     pay_status := "settled" |}.

Definition failed : Payment :=
  {| pay_authorization := None;
     pay_preimage := None;
     pay_amount := Some 10;
     pay_status := "failed" |}.

Definition script (t : Z) (rs : list Response) (ps : list Payment) : Env :=
  mkEnv t (inr <$> rs) (inr <$> ps) [] [].

Definition no_options : L402ClientOptions := mkOptions None None None.

(** [client(ln, options)] with the default store. *)
Definition fresh_client (options : L402ClientOptions) (e : Env)
  : ClientState MemoryStore Env :=
  client options (mkMemoryStore ∅) e.

Definition cachedToken (expires : option Date) : L402Token :=
  {| macaroon := "mac"; preimage := "pre"; authorization := "L402 mac:pre";
     paidAt := ValidDate 0; expiresAt := expires |}.

(** A client whose store already holds [token] for [URL_PREMIUM]. *)
Definition cached_client (options : L402ClientOptions) (token : L402Token)
    (e : Env) : ClientState MemoryStore Env :=
  client options (ts_set URL_PREMIUM token (mkMemoryStore ∅)) e.

(** The middleware tests: a request with an L402 credential, a fixed
    price of 5, a verifier that throws, a minter that answers. *)
Definition request_with (authorization : string) : Paywall.Request :=
  {| Paywall.req_headers := {[ "authorization" := authorization ]};
     Paywall.req_path := "/test";
     Paywall.req_l402 := None |}.

Definition fixed_price (n : Z) : Paywall.L402PaywallOptions Env :=
  {| Paywall.price := inl n;
     Paywall.description := None;
     Paywall.expirySeconds := None;
     Paywall.opt_caveats := None |}.

Definition network_error : Error := mkError OtherError "network error".

Definition minted : ChallengeResponse :=
  {| c_macaroon := "mac"; c_invoice := "inv"; c_wwwAuthenticate := wwwAuth |}.

Definition gate_script (vs : list (Error + VerifyResult))
    (cs : list (Error + ChallengeResponse)) : Env :=
  mkEnv 0 [] [] vs cs.





(** The run of the client tests that pays for the resource once. *)
Definition paid_run :=
  l402Fetch no_options URL_PREMIUM None
    (fresh_client no_options (script 0 [challenge402 5; ok200; ok200] [settled 5])).

(** The parsed body stands for itself: [res.json()] gives the text of a
    non-empty body and rejects on an empty one. *)
#[global] Instance Text_JsonBody : JsonBody string :=
  {| Response_json res :=
       match resp_text res with
       | EmptyString => inl (mkError OtherError "Unexpected end of JSON input")
       | text => inr text
       end |}.

(** A stack whose protected handler may throw: [handler] is what
    [next()] throws, if anything; [next(err)] returns. *)
Record Stack := mkStack
  { sdk : Env;
    handler : option Error }.

#[global] Instance Stack_LnBot : LnBot Stack :=
  {| l402_pay w s :=
       let (r, e) := l402_pay w (sdk s) in (r, mkStack e (handler s));
     l402_verify a s :=
       let (r, e) := l402_verify a (sdk s) in (r, mkStack e (handler s));
     l402_createChallenge args s :=
       let (r, e) := l402_createChallenge args (sdk s) in (r, mkStack e (handler s)) |}.

#[global] Instance Stack_Next : Paywall.NextFunction Stack :=
  {| Paywall.express_next err s :=
       (match err with None => handler s | Some _ => None end, s) |}.

Definition verified : VerifyResult :=
  {| valid := true; v_paymentHash := Some "hash123";
     v_caveats := Some ["tier=pro"]; v_error := None |}.

Definition handler_error : Error := mkError OtherError "handler failed".

(** [price: (req) => ...] that throws. *)
Definition failing_price : Paywall.L402PaywallOptions Env :=
  {| Paywall.price := inr (fun _ e => (inl network_error, e));
     Paywall.description := None;
     Paywall.expirySeconds := None;
     Paywall.opt_caveats := None |}.

(** A fixed price, for the stack whose handler may throw. *)
Definition stack_price (n : Z) : Paywall.L402PaywallOptions Stack :=
  {| Paywall.price := inl n;
     Paywall.description := None;
     Paywall.expirySeconds := None;
     Paywall.opt_caveats := None |}.

End Mock.



(** ** Vocabulary of the statements *)

Module Spec.

(** The payer invocations of a log, with their answers. *)
Fixpoint payer_calls (log : list Client.Event)
  : list (string * (Error + Payment)) :=
  match log with
  | [] => []
  | EvPay w r :: rest => (w, r) :: payer_calls rest
  | _ :: rest => payer_calls rest
  end.

(** The requests of a log, with their answers. *)
Fixpoint requests (log : list Client.Event)
  : list (string * option RequestInit * (Error + Response)) :=
  match log with
  | [] => []
  | EvFetch u i r :: rest => (u, i, r) :: requests rest
  | _ :: rest => requests rest
  end.

(** The expiry timestamp of the token, if it has one, lies after [now]. *)
Definition not_passed (c : L402Token) (now : Z) : Prop :=
  forall t, expiresAt c = Some (ValidDate t) -> now < t.

(** The payer settled and returned an authorization: the two tests of
    step 5 pass. *)
Definition settled_with (p : Payment) (auth : string) : Prop :=
  pay_status p <> "failed" /\ pay_authorization p = Some auth /\ auth <> "".

(** The response is a 402 whose challenge header parses. *)
Definition challenge_of (res : Response) (wwwAuth : string) (ch : Challenge) : Prop :=
  status res = 402
  /\ Headers_get "www-authenticate" (resp_headers res) = Some wwwAuth
  /\ wwwAuth <> ""
  /\ parseChallenge wwwAuth = Some ch.

(** The events that follow the first payer invocation. *)
Fixpoint after_pay (log : list Client.Event) : list Client.Event :=
  match log with
  | [] => []
  | EvPay _ _ :: rest => rest
  | _ :: rest => after_pay rest
  end.

(** The payment of a log: the answer [p] of the payer, together with
    the response [res] whose challenge was paid, the one received just
    before the payer was invoked. *)
Fixpoint payment_of (log : list Client.Event) : option (Response * Payment) :=
  match log with
  | [] => None
  | ev :: rest =>
      match ev, rest with
      | EvFetch _ _ (inr res), EvPay _ (inr p) :: _ => Some (res, p)
      | _, _ => payment_of rest
      end
  end.

(** The verifier threw, or reported the credential invalid. *)
Definition verification_failed (r : Error + VerifyResult) : Prop :=
  match r with
  | inl _ => True
  | inr v => valid v = false
  end.

(** The price hint read in the body of a response. *)
Definition price_hint (res : Response) : Z :=
  default 0 (resp_json res ≫= body_price).

(** The request [i] is the caller's request with [value] as its
    [Authorization] header: the same method and body, and the same
    headers under every other name. *)
Definition carries_authorization (init : option RequestInit) (value : string)
    (i : option RequestInit) : Prop :=
  exists ri,
    i = Some ri
    /\ Headers_get "Authorization" (init_headers ri) = Some value
    /\ init_method ri = init ≫= init_method
    /\ init_body ri = init ≫= init_body
    /\ forall n, JsString.toLowerCase n <> "authorization" ->
         Headers_get n (init_headers ri) = Headers_get n (Headers_new init).

(** [Headers.set] accepts [value] as a header value. *)
Definition accepted_by_Headers (value : string) : bool :=
  isValidHeaderValue (headerValueNormalize value).

(** The request as the middleware leaves it after a valid verification. *)
Definition admitted (req : Paywall.Request) (v : VerifyResult) : Paywall.Request :=
  {| Paywall.req_headers := Paywall.req_headers req;
     Paywall.req_path := Paywall.req_path req;
     Paywall.req_l402 :=
       Some {| Paywall.paymentHash := v_paymentHash v;
               Paywall.caveats := v_caveats v |} |}.

End Spec.
Export Spec.

(** * Properties *)

(** ** Rules for running computations *)

Section EffectRules.
Context {Σ Ev : Type}.
Implicit Types (st : Σ).

Lemma wp_elim {A} (m : M Σ Ev A) st Q :
  wp m st Q -> forall out st' log, m st = (out, st', log) -> Q out st' log.
Proof. unfold wp. intros Hwp out st' log Hrun. now rewrite Hrun in Hwp. Qed.

Lemma wp_intro {A} (m : M Σ Ev A) st (Q : Result A -> Σ -> list Ev -> Prop) :
  (forall out st' log, m st = (out, st', log) -> Q out st' log) -> wp m st Q.
Proof. unfold wp. intros Hq. destruct (m st) as [[out st'] log]. now apply Hq. Qed.

Lemma wp_mono {A} (m : M Σ Ev A) st (Q Q' : Result A -> Σ -> list Ev -> Prop) :
  wp m st Q -> (forall r st' l, Q r st' l -> Q' r st' l) -> wp m st Q'.
Proof. unfold wp. destruct (m st) as [[out st'] log]. auto. Qed.

Lemma wp_ret {A} (a : A) st (Q : Result A -> Σ -> list Ev -> Prop) :
  Q (Ok a) st [] -> wp (ret a) st Q.
Proof. done. Qed.

Lemma wp_throw {A} (e : Error) st (Q : Result A -> Σ -> list Ev -> Prop) :
  Q (Throw e) st [] -> wp (throw e) st Q.
Proof. done. Qed.

Lemma wp_bind {A B} (m : M Σ Ev A) (f : A -> M Σ Ev B) st
    (Q : Result B -> Σ -> list Ev -> Prop) :
  wp m st (fun r st1 l1 =>
             match r with
             | Ok a => wp (f a) st1 (fun r2 st2 l2 => Q r2 st2 (l1 ++ l2)%list)
             | Throw e => Q (Throw e) st1 l1
             end) ->
  wp (bind m f) st Q.
Proof.
  unfold wp, bind. destruct (m st) as [[[a|e] st1] l1]; [|done].
  now destruct (f a st1) as [[r2 st2] l2].
Qed.

Lemma wp_try_catch {A} (m : M Σ Ev A) (h : Error -> M Σ Ev A) st
    (Q : Result A -> Σ -> list Ev -> Prop) :
  wp m st (fun r st1 l1 =>
             match r with
             | Ok a => Q (Ok a) st1 l1
             | Throw e => wp (h e) st1 (fun r2 st2 l2 => Q r2 st2 (l1 ++ l2)%list)
             end) ->
  wp (try_catch m h) st Q.
Proof.
  unfold wp, try_catch. destruct (m st) as [[[a|e] st1] l1]; [done|].
  now destruct (h e st1) as [[r2 st2] l2].
Qed.

End EffectRules.

Section ClientRules.
Context {S E : Type} `{TokenStore S} `{Clock E} `{Fetcher E} `{LnBot E}.
Implicit Types (st : ClientState S E) (Q : Result unit -> ClientState S E -> list Client.Event -> Prop).

Lemma wp_storeGet url st (Q : Result (option L402Token) -> _ -> _ -> Prop) :
  (forall r s1, ts_get url (st_store st) = (r, s1) ->
     Q (Ok r) (mkState s1 (st_budget st) (st_env st)) [EvStoreGet url r]) ->
  wp (storeGet url) st Q.
Proof.
  unfold wp, storeGet. intros Hq.
  destruct (ts_get url (st_store st)) as [r s1]. now apply Hq.
Qed.

Lemma wp_storeSet url token st Q :
  Q (Ok tt) (mkState (ts_set url token (st_store st)) (st_budget st) (st_env st))
    [EvStoreSet url token] ->
  wp (storeSet url token) st Q.
Proof. done. Qed.

Lemma wp_storeDelete url st Q :
  Q (Ok tt) (mkState (ts_delete url (st_store st)) (st_budget st) (st_env st))
    [EvStoreDelete url] ->
  wp (storeDelete url) st Q.
Proof. done. Qed.

Lemma wp_dateNow st (Q : Result Z -> _ -> _ -> Prop) :
  (forall t e1, Date_now (st_env st) = (t, e1) ->
     Q (Ok t) (mkState (st_store st) (st_budget st) e1) []) ->
  wp dateNow st Q.
Proof.
  unfold wp, dateNow. intros Hq.
  destruct (Date_now (st_env st)) as [t e1]. now apply Hq.
Qed.

Lemma wp_fetch url init st (Q : Result Response -> _ -> _ -> Prop) :
  (forall r e1, globalThis_fetch url init (st_env st) = (r, e1) ->
     Q (match r with inl err => Throw err | inr res => Ok res end)
       (mkState (st_store st) (st_budget st) e1) [EvFetch url init r]) ->
  wp (fetch url init) st Q.
Proof.
  unfold wp, fetch. intros Hq.
  destruct (globalThis_fetch url init (st_env st)) as [r e1]. now apply Hq.
Qed.

Lemma wp_pay wwwAuth st (Q : Result Payment -> _ -> _ -> Prop) :
  (forall r e1, l402_pay wwwAuth (st_env st) = (r, e1) ->
     Q (match r with inl err => Throw err | inr p => Ok p end)
       (mkState (st_store st) (st_budget st) e1) [EvPay wwwAuth r]) ->
  wp (pay wwwAuth) st Q.
Proof.
  unfold wp, pay. intros Hq.
  destruct (l402_pay wwwAuth (st_env st)) as [r e1]. now apply Hq.
Qed.

Lemma wp_budgetCheck price st Q :
  (forall r b1 e1, check price (st_budget st) (st_env st) = (r, b1, e1) ->
     Q r (mkState (st_store st) b1 e1) []) ->
  wp (budgetCheck price) st Q.
Proof.
  unfold wp, budgetCheck. intros Hq.
  destruct (check price (st_budget st) (st_env st)) as [[r b1] e1]. now apply Hq.
Qed.

Lemma wp_budgetRecord price st Q :
  (forall b1 e1, record price (st_budget st) (st_env st) = (b1, e1) ->
     Q (Ok tt) (mkState (st_store st) b1 e1) []) ->
  wp (budgetRecord price) st Q.
Proof.
  unfold wp, budgetRecord. intros Hq.
  destruct (record price (st_budget st) (st_env st)) as [b1 e1]. now apply Hq.
Qed.

Lemma wp_headersSet name value h st
    (Q : Result (gmap string string) -> _ -> _ -> Prop) :
  (forall r, Headers_set name value h = r ->
     Q (match r with inl err => Throw err | inr h' => Ok h' end) st []) ->
  wp (headersSet name value h) st Q.
Proof. unfold wp, headersSet. intros Hq. now apply Hq. Qed.

End ClientRules.

(** One step of a run: the rule of the head operation, or a case
    distinction on the value the program branches on. *)
Ltac run_step :=
  lazymatch goal with
  | |- wp (bind _ _) _ _ => apply wp_bind
  | |- wp (ret _) _ _ => apply wp_ret
  | |- wp (throw _) _ _ => apply wp_throw
  | |- wp (try_catch _ _) _ _ => apply wp_try_catch
  | |- wp (storeGet _) _ _ => apply wp_storeGet; intros ? ? ?
  | |- wp (storeSet _ _) _ _ => apply wp_storeSet
  | |- wp (storeDelete _) _ _ => apply wp_storeDelete
  | |- wp dateNow _ _ => apply wp_dateNow; intros ? ? ?
  | |- wp (fetch _ _) _ _ => apply wp_fetch; intros [?|?] ? ?
  | |- wp (pay _) _ _ => apply wp_pay; intros [?|?] ? ?
  | |- wp (budgetCheck _) _ _ => apply wp_budgetCheck; intros [[]|?] ? ? ?
  | |- wp (budgetRecord _) _ _ => apply wp_budgetRecord; intros ? ? ?
  | |- wp (headersSet _ _ _) _ _ => apply wp_headersSet; intros [?|?] ?
  | |- wp (match ?x with _ => _ end) _ _ => destruct x eqn:?
  end;
  cbn beta iota delta [st_store st_budget st_env] in *.

Ltac run := repeat run_step.

(** Two answers to the same call are the same answer; boolean tests read
    as propositions. *)
Ltac tidy :=
  repeat match goal with
    | H1 : ?x = (_, _), H2 : ?x = (_, _) |- _ => rewrite H1 in H2; simplify_eq
    | H : negb _ = true |- _ => apply negb_true_iff in H
    | H : negb _ = false |- _ => apply negb_false_iff in H
    | H : (_ =? _) = true |- _ => apply Z.eqb_eq in H
    | H : (_ =? _) = false |- _ => apply Z.eqb_neq in H
    | H : (_ >? _) = true |- _ => apply Z.gtb_gt in H
    | H : (_ >? _) = false |- _ => rewrite Z.gtb_ltb, Z.ltb_ge in H
    | H : String.eqb _ _ = true |- _ => apply String.eqb_eq in H
    | H : String.eqb _ _ = false |- _ => apply String.eqb_neq in H
    end.


(** ** The header codec *)

Section CodecProperties.
Import JsString.

Lemma append_nil s : "" ++ s = s.
Proof. reflexivity. Qed.

Lemma append_cons a s t : String a s ++ t = String a (s ++ t).
Proof. reflexivity. Qed.

Lemma append_assoc s t u : (s ++ t) ++ u = s ++ t ++ u.
Proof. induction s as [|a s IH]; [done|]. now rewrite !append_cons, IH. Qed.

Lemma last_index_absent c s :
  contains_char c s = false -> last_index c s = None.
Proof.
  induction s as [|a s IH]; cbn [contains_char last_index]; [done|].
  intros [Ha Hs]%orb_false_elim. now rewrite IH, Ha.
Qed.

Lemma last_index_app c m p :
  contains_char c p = false ->
  last_index c (m ++ String c p) = Some (String.length m).
Proof.
  intros Hp. induction m as [|a m IH].
  - rewrite append_nil. cbn [last_index String.length].
    rewrite last_index_absent by done. now rewrite Ascii.eqb_refl.
  - rewrite append_cons. cbn [last_index String.length]. now rewrite IH.
Qed.

Lemma slice_to_app m rest : slice_to (String.length m) (m ++ rest) = m.
Proof.
  induction m as [|a m IH]; [done|].
  rewrite append_cons. cbn [slice_to String.length]. by rewrite IH.
Qed.

Lemma slice_from_app m rest : slice_from (String.length m) (m ++ rest) = rest.
Proof.
  induction m as [|a m IH]; [done|].
  rewrite append_cons. cbn [slice_from String.length]. exact IH.
Qed.

Lemma slice_from_succ_app m c p :
  slice_from (Datatypes.S (String.length m)) (m ++ String c p) = p.
Proof.
  induction m as [|a m IH]; [done|].
  rewrite append_cons. cbn [String.length]. exact IH.
Qed.

(** The authorization half of the round trip needs a colon-free
    preimage only: the macaroon may contain colons. *)
Lemma parseAuthorization_format m p :
  contains_char colon p = false ->
  parseAuthorization (formatAuthorization m p)
  = Some {| auth_macaroon := m; auth_preimage := p |}.
Proof.
  intros Hp.
  assert (Htoken : slice 5 (formatAuthorization m p) = m ++ String colon p)
    by reflexivity.
  unfold parseAuthorization.
  replace (startsWith "L402 " (formatAuthorization m p)) with true by reflexivity.
  cbn [negb]. rewrite Htoken. unfold slice, slice0, lastIndexOf.
  rewrite (last_index_app _ _ _ Hp).
  destruct (Z.eqb_spec (Z.of_nat (String.length m)) (-1)) as [Hneg|_]; [lia|].
  rewrite Nat2Z.id, slice_to_app.
  replace (Z.to_nat (Z.of_nat (String.length m) + 1))
    with (Datatypes.S (String.length m)) by lia.
  now rewrite slice_from_succ_app.
Qed.

(** *** The two patterns on a formatted challenge *)

Lemma strip_literal_app lit s : strip_literal lit (lit ++ s) = Some s.
Proof.
  induction lit as [|a lit IH]; [done|].
  rewrite append_cons. cbn [strip_literal]. now rewrite Ascii.eqb_refl.
Qed.

Lemma span_unquoted_app m rest :
  contains_char quote m = false ->
  span_unquoted (m ++ String quote rest) = (m, String quote rest).
Proof.
  induction m as [|a m IH].
  - intros _. rewrite append_nil. cbn [span_unquoted]. now rewrite Ascii.eqb_refl.
  - cbn [contains_char]. intros [Ha Hm]%orb_false_elim.
    rewrite append_cons. cbn [span_unquoted]. now rewrite Ha, IH.
Qed.

Lemma strip_literal_cons a lit c s :
  strip_literal (String a lit) (String c s)
  = if Ascii.eqb a c then strip_literal lit s else None.
Proof. reflexivity. Qed.

(** A match at the start: the literal, a non-empty run, a quote. *)
Lemma match_here_attribute lit m rest :
  m <> "" -> contains_char quote m = false ->
  match_here lit (lit ++ m ++ String quote rest) = Some m.
Proof.
  intros Hm Hq. unfold match_here.
  rewrite strip_literal_app, span_unquoted_app by done.
  destruct m; [done|]. now rewrite Ascii.eqb_refl.
Qed.

Lemma regex_group_here lit s g :
  match_here lit s = Some g -> regex_group lit s = Some g.
Proof. intros Hm. destruct s; cbn [regex_group]; now rewrite Hm. Qed.

Lemma regex_group_step lit c s :
  match_here lit (String c s) = None ->
  regex_group lit (String c s) = regex_group lit s.
Proof. intros Hm. cbn [regex_group]. now rewrite Hm. Qed.

Lemma match_here_mismatch a lit c s :
  Ascii.eqb a c = false -> match_here (String a lit) (String c s) = None.
Proof. intros Hac. unfold match_here. cbn [strip_literal]. now rewrite Hac. Qed.

(** The literal of the invoice pattern can only start inside a
    quote-free text followed by a quote if that text is exactly
    [invoice=]. *)
Lemma strip_invoice_literal m rest r :
  contains_char quote m = false ->
  strip_literal invoice_literal (m ++ String quote rest) = Some r ->
  m = "invoice=".
Proof.
  unfold invoice_literal. intros Hq Hs.
  repeat match type of Hs with
         | strip_literal (String ?a _) (?m ++ _) = _ =>
             destruct m as [|c m];
             [ rewrite append_nil, strip_literal_cons in Hs;
               destruct (Ascii.eqb_spec a quote) as [Heq|_];
               [ first [discriminate Heq | reflexivity] | discriminate Hs ]
             | rewrite append_cons, strip_literal_cons in Hs;
               destruct (Ascii.eqb_spec a c) as [<-|?]; [|discriminate Hs] ]
         end.
  cbn in Hq. discriminate Hq.
Qed.

Lemma regex_group_invoice_scan m rest :
  contains_char quote m = false ->
  ~ endsWith m "invoice=" ->
  regex_group invoice_literal (m ++ String quote rest)
  = regex_group invoice_literal (String quote rest).
Proof.
  induction m as [|a m IH]; [done|].
  intros Hq Hend. rewrite append_cons, regex_group_step.
  - apply IH.
    + cbn [contains_char] in Hq. now apply orb_false_elim in Hq.
    + intros [pre ->]. apply Hend. exists (String a pre). now rewrite append_cons.
  - rewrite <- append_cons. unfold match_here.
    destruct (strip_literal invoice_literal (String a m ++ String quote rest))
      as [r|] eqn:Hs; [|done].
    apply strip_invoice_literal in Hs; [|done].
    exfalso. apply Hend. exists "". now rewrite Hs.
Qed.

Lemma formatChallenge_unfold m i :
  formatChallenge m i
  = "L402 " ++ macaroon_literal ++ m
      ++ String quote (", " ++ invoice_literal ++ i ++ String quote "").
Proof. reflexivity. Qed.

Ltac skip_char :=
  rewrite regex_group_step by (apply match_here_mismatch; reflexivity).

Lemma macaroon_group_format m i :
  m <> "" -> contains_char quote m = false ->
  regex_group macaroon_literal (formatChallenge m i) = Some m.
Proof.
  intros Hm Hq. rewrite formatChallenge_unfold.
  unfold macaroon_literal at 1.
  repeat (rewrite append_cons || rewrite append_nil).
  do 5 skip_char.
  apply regex_group_here.
  change (match_here macaroon_literal
            (macaroon_literal ++ m
               ++ String quote (", " ++ invoice_literal ++ i ++ String quote ""))
          = Some m).
  now apply match_here_attribute.
Qed.

Lemma invoice_group_format m i :
  contains_char quote m = false -> ~ endsWith m "invoice=" ->
  i <> "" -> contains_char quote i = false ->
  regex_group invoice_literal (formatChallenge m i) = Some i.
Proof.
  intros Hq Hend Hi Hqi. rewrite formatChallenge_unfold.
  unfold invoice_literal at 1, macaroon_literal.
  repeat (rewrite append_cons || rewrite append_nil).
  do 15 skip_char.
  change (regex_group invoice_literal
            (m ++ String quote
                    (", " ++ invoice_literal ++ i ++ String quote "")) = Some i).
  rewrite regex_group_invoice_scan by done.
  unfold invoice_literal at 1.
  repeat (rewrite append_cons || rewrite append_nil).
  do 3 skip_char.
  apply regex_group_here.
  change (match_here invoice_literal (invoice_literal ++ i ++ String quote "")
          = Some i).
  now apply match_here_attribute.
Qed.

(** The challenge half of the round trip holds for a macaroon that does
    not end in [invoice=]. *)
Lemma parseChallenge_format m i :
  m <> "" -> i <> "" ->
  contains_char quote m = false -> contains_char quote i = false ->
  ~ endsWith m "invoice=" ->
  parseChallenge (formatChallenge m i)
  = Some {| ch_macaroon := m; ch_invoice := i |}.
Proof.
  intros Hm Hi Hqm Hqi Hend. unfold parseChallenge.
  replace (startsWith "L402 " (formatChallenge m i)) with true by reflexivity.
  cbn [negb].
  now rewrite macaroon_group_format, invoice_group_format.
Qed.

(** A macaroon that ends in [invoice=]: the pattern of the invoice
    matches from inside the macaroon, across its closing quote. *)
Lemma parseChallenge_format_invoice_suffix i :
  parseChallenge (formatChallenge "invoice=" i)
  = Some {| ch_macaroon := "invoice="; ch_invoice := ", invoice=" |}.
Proof. reflexivity. Qed.

End CodecProperties.

(** ** The budget tracker *)

Section BudgetProperties.
Context {E : Type} `{Clock E}.
Import JsString.

Lemma maybeReset_elapsed b e :
  period_elapsed b e = true ->
  spent (maybeReset b e).1 = 0
  /\ totalSats (maybeReset b e).1 = totalSats b
  /\ periodMs (maybeReset b e).1 = periodMs b.
Proof.
  unfold period_elapsed, maybeReset. destruct (periodMs b) as [p|] eqn:Hp; [|done].
  destruct (p =? 0); [done|]. destruct (Date_now e) as [t e1]. cbn [fst negb andb].
  intros ->. now destruct (Date_now e1).
Qed.

Lemma maybeReset_not_elapsed b e :
  period_elapsed b e = false -> (maybeReset b e).1 = b.
Proof.
  unfold period_elapsed, maybeReset. destruct (periodMs b) as [p|]; [|done].
  destruct (p =? 0); [done|]. destruct (Date_now e) as [t e1]. cbn [fst negb andb].
  now intros ->.
Qed.

Lemma maybeReset_no_period b e :
  periodMs b = None -> maybeReset b e = (b, e).
Proof. unfold maybeReset. now intros ->. Qed.

(** The lazy reset leaves [spent] alone or zeroes it. *)
Lemma maybeReset_spent b e :
  spent (maybeReset b e).1 = if period_elapsed b e then 0 else spent b.
Proof.
  destruct (period_elapsed b e) eqn:Hel.
  - now apply maybeReset_elapsed.
  - now rewrite maybeReset_not_elapsed.
Qed.

Lemma maybeReset_limits b e :
  totalSats (maybeReset b e).1 = totalSats b
  /\ periodMs (maybeReset b e).1 = periodMs b.
Proof.
  destruct (period_elapsed b e) eqn:Hel.
  - now apply maybeReset_elapsed.
  - now rewrite maybeReset_not_elapsed.
Qed.

Lemma check_unfold price b e :
  check price b e
  = match totalSats b with
    | None => (Ok tt, b, e)
    | Some total =>
        (if spent (maybeReset b e).1 + price >? total then
           Throw (mkError L402BudgetExceededError
                    (exceed_message price (spent (maybeReset b e).1) total))
         else Ok tt, (maybeReset b e).1, (maybeReset b e).2)
    end.
Proof.
  unfold check. destruct (totalSats b); [|done].
  destruct (maybeReset b e) as [b1 e1]. cbn [fst snd]. now destruct (_ >? _).
Qed.

Lemma record_unfold price b e :
  record price b e
  = ({| spent := spent (maybeReset b e).1 + price;
        periodStart := periodStart (maybeReset b e).1;
        totalSats := totalSats (maybeReset b e).1;
        periodMs := periodMs (maybeReset b e).1 |}, (maybeReset b e).2).
Proof. unfold record. now destruct (maybeReset b e). Qed.

(** What [check] leaves in the budget. *)
Lemma check_budget price b e :
  (check price b e).1.2 = match totalSats b with
                          | None => b
                          | Some _ => (maybeReset b e).1
                          end.
Proof. rewrite check_unfold. now destruct (totalSats b). Qed.

Lemma check_spent price b e :
  spent (check price b e).1.2 = spent b \/ spent (check price b e).1.2 = 0.
Proof.
  rewrite check_budget. destruct (totalSats b); [|by left].
  rewrite maybeReset_spent. destruct (period_elapsed b e); auto.
Qed.

Lemma check_limits price b e :
  totalSats (check price b e).1.2 = totalSats b
  /\ periodMs (check price b e).1.2 = periodMs b.
Proof.
  rewrite check_budget. destruct (totalSats b) eqn:Ht; [|done].
  destruct (maybeReset_limits b e) as [-> ->]. done.
Qed.

Lemma record_spent price b e :
  spent (record price b e).1 = spent b + price
  \/ spent (record price b e).1 = price.
Proof.
  rewrite record_unfold. cbn [fst spent]. rewrite maybeReset_spent.
  destruct (period_elapsed b e); [right|left]; lia.
Qed.

Lemma record_limits price b e :
  totalSats (record price b e).1 = totalSats b
  /\ periodMs (record price b e).1 = periodMs b.
Proof. rewrite record_unfold. cbn [fst totalSats periodMs]. apply maybeReset_limits. Qed.

Lemma check_eq price b e r b1 e1 :
  check price b e = (r, b1, e1) ->
  (spent b1 = spent b \/ spent b1 = 0)
  /\ periodMs b1 = periodMs b
  /\ (periodMs b = None -> b1 = b).
Proof.
  intros Hc. pose proof (check_spent price b e) as Hs.
  pose proof (check_limits price b e) as [_ Hp].
  pose proof (check_budget price b e) as Hb.
  rewrite Hc in Hs, Hp, Hb. cbn [fst snd] in *. repeat split; [done..|].
  intros Hnone. rewrite Hb. destruct (totalSats b); [|done].
  now rewrite maybeReset_no_period.
Qed.


Lemma includes_intro pre sub post : includes (pre ++ sub ++ post) sub.
Proof. now exists pre, post. Qed.

Lemma exceed_message_reports price spent total :
  includes (exceed_message price spent total) (pretty price)
  /\ includes (exceed_message price spent total) (pretty spent)
  /\ includes (exceed_message price spent total) (pretty total).
Proof.
  unfold exceed_message. split; [|split].
  - apply includes_intro.
  - exists ("Payment of " ++ pretty price ++ " sats would exceed budget ("),
           ("/" ++ pretty total ++ " sats spent)").
    now rewrite !append_assoc.
  - exists ("Payment of " ++ pretty price ++ " sats would exceed budget ("
             ++ pretty spent ++ "/"), " sats spent)".
    now rewrite !append_assoc.
Qed.

End BudgetProperties.

(** ** The [Authorization] header *)

(** [headers.set("Authorization", value)]: the name is a valid one, so
    the value decides. *)
Lemma Headers_set_authorization value h :
  Headers_set "Authorization" value h
  = if accepted_by_Headers value
    then inr (<["authorization" := headerValueNormalize value]> h)
    else inl (mkError TypeError "Invalid header value").
Proof.
  unfold Headers_set, accepted_by_Headers.
  change (negb (isValidHeaderName "Authorization")) with false.
  change (JsString.toLowerCase "Authorization") with "authorization".
  cbv iota. now destruct (isValidHeaderValue _).
Qed.

Lemma Headers_set_ok value h h' :
  Headers_set "Authorization" value h = inr h' ->
  accepted_by_Headers value = true
  /\ h' = <["authorization" := headerValueNormalize value]> h.
Proof.
  rewrite Headers_set_authorization.
  destruct (accepted_by_Headers value); [|done]. by intros [= <-].
Qed.

Lemma Headers_set_throws value h err :
  Headers_set "Authorization" value h = inl err ->
  accepted_by_Headers value = false /\ name err = TypeError.
Proof.
  rewrite Headers_set_authorization.
  destruct (accepted_by_Headers value); [done|]. by intros [= <-].
Qed.

(** What [with_authorization] leaves of the caller's [init]. *)
Lemma with_authorization_carries init a :
  carries_authorization init (headerValueNormalize a) (with_authorization init a).
Proof.
  eexists. split; [reflexivity|]. unfold with_headers, Headers_get.
  change (JsString.toLowerCase "Authorization") with "authorization".
  destruct init as [i|]; cbn [init_method init_body init_headers mbind option_bind].
  all: split_and!; [apply lookup_insert_eq|done|done|].
  all: intros n Hn; by rewrite lookup_insert_ne.
Qed.

(** The outcome of [headers.set] read as a fact about the value, and
    the request that follows as [with_authorization]. *)
Ltac tidy_headers :=
  repeat match goal with
    | H : Headers_set "Authorization" _ _ = inr _ |- _ =>
        apply Headers_set_ok in H; destruct H as [? ->]
    | H : Headers_set "Authorization" _ _ = inl _ |- _ =>
        apply Headers_set_throws in H; destruct H as [? ?]
    end;
  repeat match goal with
    | |- context [Some (with_headers ?i (<["authorization" := headerValueNormalize ?a]>
                                           (Headers_new ?i)))] =>
        change (Some (with_headers i (<["authorization" := headerValueNormalize a]>
                                        (Headers_new i))))
          with (with_authorization i a) in *
    | H : context [Some (with_headers ?i (<["authorization" := headerValueNormalize ?a]>
                                            (Headers_new ?i)))] |- _ =>
        change (Some (with_headers i (<["authorization" := headerValueNormalize a]>
                                        (Headers_new i))))
          with (with_authorization i a) in *
    end.

(** ** The client *)

Section ClientProperties.
Context {S E : Type} `{TokenStore S} `{Clock E} `{Fetcher E} `{LnBot E}.

Lemma not_passed_fresh c e d t e1 :
  not_passed c (Date_now e).1 ->
  expiresAt c = Some d -> Date_now e = (t, e1) -> getTime_le d t = false.
Proof.
  intros Hfresh Hd Hnow. rewrite Hnow in Hfresh. cbn [fst] in Hfresh.
  destruct d as [ms|]; [|done]. cbn [getTime_le]. specialize (Hfresh ms Hd). lia.
Qed.

(** Call sequences are compared after the run is over. *)
Ltac by_run :=
  unfold l402Fetch, l402Fetch_rev1, cachedRequest, paidRequest, paidRequest_rev1;
  run;
  tidy_headers;
  cbn [app payer_calls requests after_pay payment_of] in *.

Lemma cache_hit_general options url init st c s1 out st' log :
  ts_get url (st_store st) = (Some c, s1) ->
  not_passed c (Date_now (st_env st)).1 ->
  accepted_by_Headers (authorization c) = true ->
  l402Fetch options url init st = (out, st', log) ->
  exists r rest,
    log = EvStoreGet url (Some c)
            :: EvFetch url (with_authorization init (authorization c)) r :: rest
    /\ (forall res, r = inr res -> status res <> 402 ->
          out = Ok res /\ rest = [])
    /\ (forall err, r = inl err -> out = Throw err /\ rest = []).
Proof.
  intros Hget Hfresh Hvalid. revert out st' log. apply wp_elim. by_run.
  all: tidy; simplify_eq.
  all: try match goal with
         | Hd : expiresAt ?c = Some ?d, Hn : Date_now _ = (?t, _),
           Hle : getTime_le ?d ?t = true |- _ =>
             rewrite (not_passed_fresh _ _ _ _ _ Hfresh Hd Hn) in Hle; discriminate
         end.
  all: try congruence.
  all: eexists _, _; (split; [reflexivity|]); naive_solver.
Qed.

(** A cached credential whose authorization [Headers.set] refuses: the
    run ends at the lookup. *)
Lemma cache_hit_refused options url init st c s1 out st' log :
  ts_get url (st_store st) = (Some c, s1) ->
  not_passed c (Date_now (st_env st)).1 ->
  accepted_by_Headers (authorization c) = false ->
  l402Fetch options url init st = (out, st', log) ->
  log = [EvStoreGet url (Some c)]
  /\ st_store st' = s1 /\ st_budget st' = st_budget st
  /\ exists err, out = Throw err /\ name err = TypeError.
Proof.
  intros Hget Hfresh Hvalid. revert out st' log. apply wp_elim. by_run.
  all: tidy; simplify_eq.
  all: try match goal with
         | Hd : expiresAt ?c = Some ?d, Hn : Date_now _ = (?t, _),
           Hle : getTime_le ?d ?t = true |- _ =>
             rewrite (not_passed_fresh _ _ _ _ _ Hfresh Hd Hn) in Hle; discriminate
         end.
  all: try congruence.
  all: split_and!; [done..|]; by eexists.
Qed.

Lemma if_truthy_Some a : a <> "" -> JsString.if_truthy (Some a) = Some a.
Proof. now destruct a. Qed.






Lemma settled_intro p auth :
  pay_status p <> "failed" ->
  JsString.if_truthy (pay_authorization p) = Some auth ->
  settled_with p auth.
Proof.
  intros Hs Ha. split; [done|].
  destruct (pay_authorization p) as [[|? ?]|]; cbn in Ha; by simplify_eq.
Qed.




(** A cached credential that has expired, or that the server rejects,
    leaves the store through [store.delete(url)]. *)
Lemma expired_credential_run options url init st c s1 d t e1 out st' log :
  ts_get url (st_store st) = (Some c, s1) ->
  expiresAt c = Some d -> Date_now (st_env st) = (t, e1) ->
  getTime_le d t = true ->
  l402Fetch options url init st = (out, st', log) ->
  exists r rest,
    log = EvStoreGet url (Some c) :: EvStoreDelete url :: EvFetch url init r :: rest.
Proof.
  intros Hget Hd Hnow Hle. revert out st' log. apply wp_elim. by_run.
  all: tidy; simplify_eq.
  all: try (rewrite Hle in *; discriminate).
  all: eexists _, _; reflexivity.
Qed.


(** Step 1 touches neither the budget nor the payer. *)
Lemma cachedRequest_effects url init st out st1 log1 :
  cachedRequest url init st = (out, st1, log1) ->
  st_budget st1 = st_budget st /\ payer_calls log1 = [].
Proof. revert out st1 log1. apply wp_elim. by_run. all: done. Qed.

Lemma l402Fetch_miss options url init st st1 log1 :
  cachedRequest url init st = (Ok None, st1, log1) ->
  l402Fetch options url init st
  = let '(r, st2, l2) := paidRequest (default 1000 (maxPrice options)) url init st1 in
    (r, st2, (log1 ++ l2)%list).
Proof. intros Hmiss. unfold l402Fetch, bind. now rewrite Hmiss. Qed.

Lemma challenge_of_header res wwwAuth ch :
  challenge_of res wwwAuth ch ->
  JsString.if_truthy (Headers_get "www-authenticate" (resp_headers res))
  = Some wwwAuth.
Proof. intros (_ & -> & Hne & _). now apply if_truthy_Some. Qed.

(** Steps 2 to 4 when the price hint is above the ceiling. *)
Lemma paidRequest_over_ceiling maxP url init st1 res e2 wwwAuth ch :
  globalThis_fetch url init (st_env st1) = (inr res, e2) ->
  challenge_of res wwwAuth ch ->
  price_hint res > maxP ->
  paidRequest maxP url init st1
  = (Throw (mkError L402BudgetExceededError (price_message (price_hint res) maxP)),
     mkState (st_store st1) (st_budget st1) e2,
     [EvFetch url init (inr res)]).
Proof.
  intros Hfetch Hch Hprice. pose proof (challenge_of_header _ _ _ Hch) as Hhdr.
  destruct Hch as (Hst & _ & _ & Hparse).
  unfold paidRequest, bind, fetch. rewrite Hfetch, Hst. cbn [negb Z.eqb Pos.eqb].
  rewrite Hhdr, Hparse. fold (price_hint res).
  destruct (Z.gtb_spec (price_hint res) maxP) as [_|Hle]; [done|lia].
Qed.

(** A 402 response with a price hint above the ceiling ends the run with
    an error, whether its challenge parses or not. *)
Lemma paidRequest_402_over_ceiling maxP url init st1 res e2 out st' log :
  globalThis_fetch url init (st_env st1) = (inr res, e2) ->
  status res = 402 ->
  price_hint res > maxP ->
  paidRequest maxP url init st1 = (out, st', log) ->
  (exists err, out = Throw err) /\ log = [EvFetch url init (inr res)].
Proof.
  intros Hfetch Hst Hprice. unfold price_hint in *.
  revert out st' log. apply wp_elim. by_run.
  all: tidy; simplify_eq; try lia.
  all: split; [by eexists|done].
Qed.

(** Steps 2 to 5 when the price hint is within the ceiling: the
    cumulative check decides, and the payer is invoked when it passes. *)
Lemma paidRequest_within_ceiling maxP url init st1 res e2 wwwAuth ch out st' log :
  globalThis_fetch url init (st_env st1) = (inr res, e2) ->
  challenge_of res wwwAuth ch ->
  price_hint res <= maxP ->
  paidRequest maxP url init st1 = (out, st', log) ->
  (exists err b1 e3,
      check (price_hint res) (st_budget st1) e2 = (Throw err, b1, e3)
      /\ out = Throw err /\ log = [EvFetch url init (inr res)])
  \/ (exists b1 e3 r rest,
        check (price_hint res) (st_budget st1) e2 = (Ok tt, b1, e3)
        /\ log = EvFetch url init (inr res) :: EvPay wwwAuth r :: rest
        /\ payer_calls log = [(wwwAuth, r)]).
Proof.
  intros Hfetch Hch Hprice. pose proof (challenge_of_header _ _ _ Hch) as Hhdr.
  destruct Hch as (Hst & _ & _ & Hparse). unfold price_hint in *.
  revert out st' log. apply wp_elim. by_run.
  all: tidy; simplify_eq; try lia.
  all: first [ left; eexists _, _, _; by repeat split
             | right; eexists _, _, _, _; by repeat split ].
Qed.
End ClientProperties.

(** ** The earlier revision of the client, on the scripted platform *)

Section EarlierRevision.
Import Mock.

(** The per-request ceiling of the earlier revision throws the base
    class. *)
Example rev1_ceiling_throws_L402Error :
  (l402Fetch_rev1 no_options URL_PREMIUM None
     (fresh_client no_options (script 0 [challenge402 1001] []))).1.1
  = Throw (mkError L402Error "Price 1001 sats exceeds maxPrice 1000").
Proof. vm_compute. reflexivity. Qed.

(** The earlier revision records the price hint, the current one the
    amount the payer reports. *)
Example rev1_records_price_hint :
  spent (st_budget
           (l402Fetch_rev1 no_options URL_PREMIUM None
              (fresh_client no_options
                 (script 0 [challenge402 10; ok200] [settled 7]))).1.2) = 10
  /\ spent (st_budget
              (l402Fetch no_options URL_PREMIUM None
                 (fresh_client no_options
                    (script 0 [challenge402 10; ok200] [settled 7]))).1.2) = 7.
Proof. split; vm_compute; reflexivity. Qed.

(** The earlier revision returns a second 402 to the caller. *)
Example rev1_returns_second_402 :
  (l402Fetch_rev1 no_options URL_PREMIUM None
     (fresh_client no_options
        (script 0 [challenge402 10; challenge402 10] [settled 10]))).1.1
  = Ok (challenge402 10)
  /\ (l402Fetch no_options URL_PREMIUM None
        (fresh_client no_options
           (script 0 [challenge402 10; challenge402 10] [settled 10]))).1.1
     = Throw (mkError L402PaymentFailedError
                "Server returned 402 after successful payment").
Proof. split; vm_compute; reflexivity. Qed.

End EarlierRevision.

(** ** The paywall *)

Section PaywallProperties.
Import Paywall.
Context {E : Type} `{LnBot E} `{NextFunction E}.

Implicit Types (st : Request * E).

Lemma wp_resolvePrice (price : Z + PricingFn E) st (Q : Result Z -> _ -> _ -> Prop) :
  match price with
  | inl n => Q (Ok n) st []
  | inr f =>
      forall r e1, f st.1 st.2 = (r, e1) ->
        Q (match r with inl err => Throw err | inr n => Ok n end) (st.1, e1) []
  end ->
  wp (resolvePrice price) st Q.
Proof.
  unfold wp, resolvePrice. destruct price as [n|f]; [done|]. intros Hq.
  destruct (f st.1 st.2) as [r e1]. now apply Hq.
Qed.

Lemma wp_createChallenge args st (Q : Result ChallengeResponse -> _ -> _ -> Prop) :
  (forall r e1, l402_createChallenge args st.2 = (r, e1) ->
     Q (match r with inl err => Throw err | inr c => Ok c end) (st.1, e1)
       [EvCreateChallenge args r]) ->
  wp (createChallenge args) st Q.
Proof.
  unfold wp, createChallenge. intros Hq.
  destruct (l402_createChallenge args st.2) as [r e1]. now apply Hq.
Qed.

Lemma wp_next err st (Q : Result unit -> _ -> _ -> Prop) :
  (forall r e1, express_next err st.2 = (r, e1) ->
     Q (match r with Some thrown => Throw thrown | None => Ok tt end) (st.1, e1)
       [EvNext err]) ->
  wp (next err) st Q.
Proof.
  unfold wp, next. intros Hq.
  destruct (express_next err st.2) as [r e1]. now apply Hq.
Qed.

Lemma wp_respond code header body st (Q : Result unit -> _ -> _ -> Prop) :
  Q (Ok tt) st [EvRespond code header body] -> wp (respond code header body) st Q.
Proof. done. Qed.

(** The three ways the challenge path ends. *)
Lemma issueChallenge_outcomes (options : L402PaywallOptions E) req e out st' log :
  issueChallenge options (req, e) = (out, st', log) ->
  (exists err, out = Throw err /\ log = [])
  \/ (exists price args ch,
        args = {| cr_amount := price;
                  cr_description := description options;
                  cr_expirySeconds := expirySeconds options;
                  cr_caveats := opt_caveats options |}
        /\ out = Ok tt
        /\ log = [EvCreateChallenge args (inr ch);
                  EvRespond 402 ("WWW-Authenticate", c_wwwAuthenticate ch)
                    {| pr_type := "payment_required";
                       pr_title := "Payment Required";
                       pr_detail :=
                         "Pay the included Lightning invoice to access this resource.";
                       pr_invoice := c_invoice ch;
                       pr_macaroon := c_macaroon ch;
                       pr_price := price;
                       pr_unit := "satoshis";
                       pr_description := description options |}])
  \/ (exists args err, log = [EvCreateChallenge args (inl err); EvNext (Some err)]).
Proof.
  revert out st' log. apply wp_elim. unfold issueChallenge.
  apply wp_bind, wp_resolvePrice.
  destruct (price options) as [n|f];
    [|intros [err|n] e0 _; [left; by eexists|]]; cbn [fst snd].
  all: apply wp_try_catch, wp_bind, wp_createChallenge; intros [err|ch] e1 _.
  all: first [ apply wp_next; intros r e2 _; right; right; by eexists _, _
             | apply wp_respond; right; left; by eexists _, _, _ ].
Qed.

(** The challenge path never hands the request to the protected
    handler. *)
Lemma issueChallenge_no_handler (options : L402PaywallOptions E) req e out st' log :
  issueChallenge options (req, e) = (out, st', log) -> EvNext None ∉ log.
Proof.
  intros Hrun. apply issueChallenge_outcomes in Hrun
    as [(err & _ & ->)|[(price & args & ch & _ & _ & ->)|(args & err & ->)]].
  - apply not_elem_of_nil.
  - intros Hin. repeat (apply elem_of_cons in Hin as [?|Hin]; [done|]).
    by apply elem_of_nil in Hin.
  - intros Hin. repeat (apply elem_of_cons in Hin as [?|Hin]; [done|]).
    by apply elem_of_nil in Hin.
Qed.

Lemma paywall_no_credential (options : L402PaywallOptions E) req e :
  JsString.if_truthy (req_headers req !! "authorization") = None ->
  paywall options (req, e) = issueChallenge options (req, e).
Proof.
  intros Hnone. unfold paywall, bind. cbn [fst snd]. rewrite Hnone. cbn [ret].
  now destruct (issueChallenge options (req, e)) as [[out st'] log].
Qed.

Lemma paywall_verification_failed (options : L402PaywallOptions E) req e a r e1 :
  req_headers req !! "authorization" = Some a ->
  JsString.startsWith "L402 " a = true ->
  l402_verify a e = (r, e1) ->
  verification_failed r ->
  paywall options (req, e)
  = let '(out, st', log) := issueChallenge options (req, e1) in
    (out, st', EvVerify a r :: log).
Proof.
  intros Hhdr Hpre Hver Hfail. unfold paywall, bind, try_catch, verify.
  cbn [fst snd]. rewrite Hhdr.
  replace (JsString.if_truthy (Some a)) with (Some a) by (by destruct a).
  rewrite Hpre. cbn [fst snd]. rewrite Hver.
  destruct r as [err|v]; cbn [ret app].
  - now destruct (issueChallenge options (req, e1)) as [[out st'] log].
  - cbn in Hfail. rewrite Hfail. cbn [ret app].
    now destruct (issueChallenge options (req, e1)) as [[out st'] log].
Qed.

End PaywallProperties.

(** * The claims *)

(** ** Header codec *)

(** C7.  The challenge half of the round trip fails on a macaroon that
    ends in [invoice=]: for the non-empty, quote-free macaroon [invoice=]
    and invoice [lnbc1], [parseChallenge (formatChallenge m i)] returns
    the text between the closing quote of the macaroon and the opening
    quote of the invoice as the invoice, not [i].  (The authorization
    half holds, [parseAuthorization_format], and so does the challenge
    half for every other macaroon, [parseChallenge_format].) *)
Theorem challenge_round_trip_fails_on_invoice_suffix :
  "invoice=" <> "" /\ "lnbc1" <> ""
  /\ JsString.contains_char quote "invoice=" = false
  /\ JsString.contains_char quote "lnbc1" = false
  /\ parseChallenge (formatChallenge "invoice=" "lnbc1")
     = Some {| ch_macaroon := "invoice="; ch_invoice := ", invoice=" |}
  /\ parseChallenge (formatChallenge "invoice=" "lnbc1")
     <> Some {| ch_macaroon := "invoice="; ch_invoice := "lnbc1" |}.
Proof.
  split_and!; [done..|].
  rewrite parseChallenge_format_invoice_suffix. discriminate.
Qed.

(** ** Budget tracker *)

(** C4 (amended).  With no total limit [check(price)] returns without
    touching the budget or the clock.  With a total limit it throws
    exactly when, after the lazy period reset, [spent + price] exceeds the
    limit, and the error is an [L402BudgetExceededError] whose message
    carries the price, the spent amount and the limit.  [check] never adds
    to [spent]: what it leaves is what the lazy reset left, zero when the
    period had elapsed and the old value otherwise. *)
Theorem check_validates_after_lazy_reset {E : Type} `{Clock E}
    (price : Z) (b : Budget) (e : E) r b1 e1 :
  check price b e = (r, b1, e1) ->
  (totalSats b = None -> r = Ok tt /\ b1 = b /\ e1 = e)
  /\ (forall total, totalSats b = Some total ->
        b1 = (maybeReset b e).1
        /\ ((exists err, r = Throw err) <-> spent b1 + price > total)
        /\ (forall err, r = Throw err ->
              name err = L402BudgetExceededError
              /\ message err = exceed_message price (spent b1) total
              /\ JsString.includes (message err) (pretty price)
              /\ JsString.includes (message err) (pretty (spent b1))
              /\ JsString.includes (message err) (pretty total))
        /\ spent b1 = if period_elapsed b e then 0 else spent b).
Proof.
  rewrite check_unfold. intros Hc. split.
  - intros Hnone. rewrite Hnone in Hc. by simplify_eq.
  - intros total Ht. rewrite Ht in Hc. simplify_eq.
    split; [done|]. split; [|split].
    + destruct (Z.gtb_spec (spent (maybeReset b e).1 + price) total) as [Hgt|Hle].
      * split; [lia|]. by eexists.
      * split; [by intros [err ?]|lia].
    + intros err Herr.
      destruct (Z.gtb_spec (spent (maybeReset b e).1 + price) total); [|done].
      simplify_eq. cbn [name message]. repeat split; apply exceed_message_reports.
    + apply maybeReset_spent.
Qed.

(** The example of the specification: after recording 60 against a limit
    of 100, [check(60)] throws and reports spent 60, total 100 and the
    attempted 60. *)
Lemma check_validates_after_lazy_reset_witness :
  let e := Mock.script 1000 [] [] in
  let b0 := (new_Budget (mkOptions None (Some 100) (Some day)) e).1 in
  let b := (record 60 b0 e).1 in
  (check 60 b e).1.1
  = Throw (mkError L402BudgetExceededError
             "Payment of 60 sats would exceed budget (60/100 sats spent)")
  /\ spent (check 60 b e).1.2 = 60.
Proof.
  intros e b0 b.
  destruct (check 60 b e) as [[r b1] e1] eqn:Hcheck. cbn [fst snd].
  destruct (check_validates_after_lazy_reset 60 b e r b1 e1 Hcheck) as [_ Hlimit].
  destruct (Hlimit 100 eq_refl) as (Hb1 & Hthrow & Hmsg & Hspent).
  assert (Hs : spent b1 = 60) by (rewrite Hspent; reflexivity).
  split; [|exact Hs].
  destruct (proj2 Hthrow) as [err ->]; [rewrite Hs; lia|].
  destruct (Hmsg err eq_refl) as (Hname & Hmessage & _).
  destruct err as [n m]. cbn [name message] in *. subst n m.
  rewrite Hs. reflexivity.
Defined.

(** C4, as stated, fails: a [check] that finds the period elapsed zeroes
    [spent].  The budget is exhausted (100 of 100) and its hour has passed;
    [check(50)] returns normally and leaves [spent] at 0. *)
Lemma check_mutates_spent_on_reset :
  let b := {| spent := 100; periodStart := 0;
              totalSats := Some 100; periodMs := Some (PERIOD_MS hour) |} in
  let e := Mock.script (60 * 60 * 1000 + 1) [] [] in
  (check 50 b e).1.1 = Ok tt
  /\ spent b = 100
  /\ spent (check 50 b e).1.2 = 0
  /\ spent (check 50 b e).1.2 <> spent b.
Proof. vm_compute. repeat split; discriminate. Qed.

(** ** Client *)

Section ClientClaims.
Context {S E : Type} `{TokenStore S} `{Clock E} `{Fetcher E} `{LnBot E}.


(** C3.  When step 1 does not answer and the response to the request
    without credential is a 402 with a parseable challenge whose price
    hint is above the configured ceiling, the run throws an
    [L402BudgetExceededError], which is neither a protocol error nor a
    payment failure and whose message carries the price; the payer is
    not invoked and the budget is left as it was. *)
Theorem price_above_ceiling_fails_before_payment options url init
    (st st1 : ClientState S E) log1 res e2 wwwAuth ch :
  cachedRequest url init st = (Ok None, st1, log1) ->
  globalThis_fetch url init (st_env st1) = (inr res, e2) ->
  challenge_of res wwwAuth ch ->
  price_hint res > default 1000 (maxPrice options) ->
  exists err st' log,
    l402Fetch options url init st = (Throw err, st', log)
    /\ name err = L402BudgetExceededError
    /\ instanceOf err L402BudgetExceededError = true
    /\ instanceOf err L402PaymentFailedError = false
    /\ (forall msg, instanceOf (mkError L402Error msg) L402BudgetExceededError = false)
    /\ (forall msg, instanceOf (mkError L402PaymentFailedError msg)
                      L402BudgetExceededError = false)
    /\ message err
       = price_message (price_hint res) (default 1000 (maxPrice options))
    /\ JsString.includes (message err) (pretty (price_hint res))
    /\ payer_calls log = []
    /\ st_budget st' = st_budget st
    /\ spent (st_budget st') = spent (st_budget st).
Proof.
  intros Hmiss Hfetch Hch Hprice.
  destruct (cachedRequest_effects _ _ _ _ _ _ Hmiss) as [Hbudget Hnopay].
  eexists _, _, _. split.
  - rewrite (l402Fetch_miss _ _ _ _ _ _ Hmiss).
    rewrite (paidRequest_over_ceiling _ _ _ _ _ _ _ _ Hfetch Hch Hprice). reflexivity.
  - cbn [name message st_budget]. split_and!; try done.
    + apply includes_intro.
    + clear -Hnopay. induction log1 as [|[] log1 IH]; cbn in *; auto; discriminate.
    + now rewrite Hbudget.
Qed.


(** C9.  A cached credential whose [expiresAt] equals the current time
    is treated as expired: it is deleted from the store and the request
    goes out with the caller's own [init], no credential attached.  A
    cached credential without [expiresAt] is not expired whatever the
    clock says: it is not deleted, and it is attached to the request;
    only when [Headers.set] refuses its authorization does the run end
    at the lookup, with the [TypeError]. *)
Theorem credential_expiring_now_is_expired options url init
    (st : ClientState S E) c s1 out st' log :
  ts_get url (st_store st) = (Some c, s1) ->
  l402Fetch options url init st = (out, st', log) ->
  (forall t, expiresAt c = Some (ValidDate t) ->
             (Date_now (st_env st)).1 = t ->
     exists r rest,
       log = EvStoreGet url (Some c) :: EvStoreDelete url
               :: EvFetch url init r :: rest)
  /\ (expiresAt c = None ->
      (accepted_by_Headers (authorization c) = true
       /\ exists r rest,
            log = EvStoreGet url (Some c)
                    :: EvFetch url (with_authorization init (authorization c)) r
                    :: rest)
      \/ (accepted_by_Headers (authorization c) = false
          /\ log = [EvStoreGet url (Some c)]
          /\ exists err, out = Throw err /\ name err = TypeError)).
Proof.
  intros Hget Hrun. split.
  - intros t Hexp Hnow. destruct (Date_now (st_env st)) as [t' e1] eqn:Hclock.
    cbn [fst] in Hnow. subst t'.
    eapply expired_credential_run; [exact Hget|exact Hexp|exact Hclock| |exact Hrun].
    cbn [getTime_le]. lia.
  - intros Hnone.
    assert (Hfresh : not_passed c (Date_now (st_env st)).1)
      by (intros t Ht; congruence).
    destruct (accepted_by_Headers (authorization c)) eqn:Hvalid.
    + left. split; [done|].
      destruct (cache_hit_general _ _ _ _ _ _ _ _ _ Hget Hfresh Hvalid Hrun)
        as (r & rest & -> & _).
      by eexists _, _.
    + right. split; [done|].
      by destruct (cache_hit_refused _ _ _ _ _ _ _ _ _ Hget Hfresh Hvalid Hrun)
        as (-> & _ & _ & Hout).
Qed.

(** C10.  Without a [maxPrice] option the ceiling is 1000.  When step 1
    does not answer and the response to the request without credential
    is a 402: a price hint of 1001 or more makes the run throw before the
    payer is invoked (the ceiling error when the challenge parses); a
    price hint of at most 1000 passes the ceiling, so that with a
    parseable challenge the run goes on to the cumulative check and,
    when that passes, invokes the payer. *)
Theorem default_ceiling_is_1000 options url init
    (st st1 : ClientState S E) log1 res e2 out st' log :
  maxPrice options = None ->
  cachedRequest url init st = (Ok None, st1, log1) ->
  globalThis_fetch url init (st_env st1) = (inr res, e2) ->
  status res = 402 ->
  l402Fetch options url init st = (out, st', log) ->
  (price_hint res >= 1001 ->
     (exists err, out = Throw err)
     /\ payer_calls log = []
     /\ forall wwwAuth ch, challenge_of res wwwAuth ch ->
          out = Throw (mkError L402BudgetExceededError
                         (price_message (price_hint res) 1000)))
  /\ (price_hint res <= 1000 ->
      forall wwwAuth ch, challenge_of res wwwAuth ch ->
        (exists err b1 e3,
            check (price_hint res) (st_budget st1) e2 = (Throw err, b1, e3)
            /\ out = Throw err /\ payer_calls log = [])
        \/ (exists b1 e3 r,
              check (price_hint res) (st_budget st1) e2 = (Ok tt, b1, e3)
              /\ payer_calls log = [(wwwAuth, r)])).
Proof.
  intros Hdefault Hmiss Hfetch Hst Hrun.
  destruct (cachedRequest_effects _ _ _ _ _ _ Hmiss) as [_ Hnopay].
  assert (Happ : forall l2, payer_calls (log1 ++ l2)%list = payer_calls l2).
  { clear -Hnopay. intros l2.
    induction log1 as [|[] log1 IH]; cbn in *; auto; discriminate. }
  rewrite (l402Fetch_miss _ _ _ _ _ _ Hmiss), Hdefault in Hrun. cbn [default] in Hrun.
  destruct (paidRequest 1000 url init st1) as [[out2 st2] l2] eqn:Hpaid.
  simplify_eq. rewrite Happ. split.
  - intros Hprice.
    assert (Habove : price_hint res > 1000) by lia.
    destruct (paidRequest_402_over_ceiling _ _ _ _ _ _ _ _ _ Hfetch Hst Habove Hpaid)
      as [Hthrow ->].
    split_and!; [done|done|].
    intros wwwAuth ch Hch.
    rewrite (paidRequest_over_ceiling _ _ _ _ _ _ _ _ Hfetch Hch) in Hpaid by lia.
    by simplify_eq.
  - intros Hprice wwwAuth ch Hch.
    destruct (paidRequest_within_ceiling _ _ _ _ _ _ _ _ _ _ _ Hfetch Hch Hprice Hpaid)
      as [(err & b1 & e3 & Hc & -> & ->)|(b1 & e3 & r & rest & Hc & _ & Hcalls)].
    + left. by eexists _, _, _.
    + right. by eexists _, _, _.
Qed.

End ClientClaims.

Section DefaultStoreClaims.
Context {E : Type} `{Clock E} `{Fetcher E} `{LnBot E} `{UrlApi}.






End DefaultStoreClaims.

(** ** Paywall *)

Section PaywallClaims.
Import Paywall.
Context {E : Type} `{LnBot E} `{NextFunction E}.

(** C8.  When the verifier throws or reports the credential invalid,
    the middleware does what it does for a request without credential:
    it runs the challenge path, from the environment the verifier left.
    The outcome is that of the challenge path, whatever the verifier
    threw or reported, and the protected handler is not invoked. *)
Theorem verification_failure_falls_through_to_challenge
    (options : L402PaywallOptions E) req e a r e1 out st' log :
  req_headers req !! "authorization" = Some a ->
  JsString.startsWith "L402 " a = true ->
  l402_verify a e = (r, e1) ->
  verification_failed r ->
  paywall options (req, e) = (out, st', log) ->
  (exists log0,
     issueChallenge options (req, e1) = (out, st', log0)
     /\ log = EvVerify a r :: log0)
  /\ (EvNext None ∉ log)
  /\ (forall req0 e0,
        JsString.if_truthy (req_headers req0 !! "authorization") = None ->
        paywall options (req0, e0) = issueChallenge options (req0, e0)).
Proof.
  intros Hhdr Hpre Hver Hfail Hrun.
  rewrite (paywall_verification_failed _ _ _ _ _ _ Hhdr Hpre Hver Hfail) in Hrun.
  destruct (issueChallenge options (req, e1)) as [[out0 st0] log0] eqn:Hissue.
  simplify_eq. split_and!.
  - by exists log0.
  - intros [?|Hin]%elem_of_cons; [done|].
    by apply (issueChallenge_no_handler _ _ _ _ _ _ Hissue).
  - intros req0 e0. apply paywall_no_credential.
Qed.

End PaywallClaims.

(** * The claims at concrete inputs

    The runs below are those of the test suite, on the scripted
    platform. *)

Section Witnesses.
Import Mock.

Lemma run_eta {A B C : Type} (x : A * B * C) : x = (x.1.1, x.1.2, x.2).
Proof. by destruct x as [[? ?] ?]. Qed.




(** C3 at a price hint of 500 against a ceiling of 100. *)
Lemma price_above_ceiling_fails_before_payment_witness :
  let options := mkOptions (Some 100) None None in
  let st := fresh_client options (script 0 [challenge402 500] [settled 500]) in
  let run := l402Fetch options URL_PREMIUM None st in
  price_hint (challenge402 500) > 100
  /\ run.1.1 = Throw (mkError L402BudgetExceededError
                        "Price 500 sats exceeds maxPrice 100")
  /\ payer_calls run.2 = []
  /\ spent (st_budget run.1.2) = spent (st_budget st).
Proof.
  intros options st run.
  assert (Hprice : price_hint (challenge402 500) > 100) by reflexivity.
  pose (step1 := cachedRequest URL_PREMIUM None st).
  destruct (price_above_ceiling_fails_before_payment options URL_PREMIUM None
              st step1.1.2 step1.2 (challenge402 500)
              (globalThis_fetch URL_PREMIUM None (st_env step1.1.2)).2
              wwwAuth (mkChallenge "mac" "inv"))
    as (err & st' & log & Hrun & Hname & _ & _ & _ & _ & Hmsg & _ & Hcalls & _ & Hspent).
  - vm_compute. reflexivity.
  - vm_compute. reflexivity.
  - split_and!; [reflexivity|reflexivity|discriminate|reflexivity].
  - exact Hprice.
  - subst run. rewrite Hrun. cbn [fst snd].
    destruct err as [n m]. cbn [name message] in *. subst n m.
    split_and!; [exact Hprice|reflexivity|exact Hcalls|exact Hspent].
Defined.


(** C9 at a credential that expires at time 1000, looked up at time
    1000. *)
Lemma credential_expiring_now_is_expired_witness :
  let c := cachedToken (Some (ValidDate 1000)) in
  let st := cached_client no_options c (script 1000 [ok200] []) in
  let run := l402Fetch no_options URL_PREMIUM None st in
  exists r rest,
    run.2 = EvStoreGet URL_PREMIUM (Some c) :: EvStoreDelete URL_PREMIUM
              :: EvFetch URL_PREMIUM None r :: rest.
Proof.
  intros c st run.
  destruct (credential_expiring_now_is_expired no_options URL_PREMIUM None st
              c (st_store st) run.1.1 run.1.2 run.2) as [Hexpired _].
  - vm_compute. reflexivity.
  - apply run_eta.
  - apply (Hexpired 1000); reflexivity.
Defined.

(** C10 at a price hint of 1000 and no [maxPrice]: the payer is
    invoked. *)
Lemma default_ceiling_is_1000_witness :
  let st := fresh_client no_options
              (script 0 [challenge402 1000; ok200] [settled 1000]) in
  let run := l402Fetch no_options URL_PREMIUM None st in
  maxPrice no_options = None
  /\ price_hint (challenge402 1000) <= 1000
  /\ exists r, payer_calls run.2 = [(wwwAuth, r)].
Proof.
  intros st run.
  pose (step1 := cachedRequest URL_PREMIUM None st).
  destruct (default_ceiling_is_1000 no_options URL_PREMIUM None
              st step1.1.2 step1.2 (challenge402 1000)
              (globalThis_fetch URL_PREMIUM None (st_env step1.1.2)).2
              run.1.1 run.1.2 run.2)
    as [_ Hwithin].
  - reflexivity.
  - vm_compute. reflexivity.
  - vm_compute. reflexivity.
  - reflexivity.
  - apply run_eta.
  - split; [reflexivity|]. split; [discriminate|].
    destruct (Hwithin ltac:(discriminate) wwwAuth (mkChallenge "mac" "inv"))
      as [(err & b1 & e3 & Hcheck & _)|(b1 & e3 & r & _ & Hcalls)].
    + split_and!; [reflexivity|reflexivity|discriminate|reflexivity].
    + vm_compute in Hcheck. discriminate Hcheck.
    + by exists r.
Defined.





(** C8 at a verifier that throws: the middleware answers 402 with a
    fresh challenge. *)
Lemma verification_failure_falls_through_to_challenge_witness :
  let req := request_with "L402 mac:pre" in
  let e := gate_script [inl network_error] [inr minted] in
  let run := Paywall.paywall (fixed_price 5) (req, e) in
  run.1.1 = Ok tt
  /\ (Paywall.EvNext None ∉ run.2)
  /\ exists body,
       run.2 = [Paywall.EvVerify "L402 mac:pre" (inl network_error);
                Paywall.EvCreateChallenge
                  (mkChallengeRequest 5 None None None) (inr minted);
                Paywall.EvRespond 402 ("WWW-Authenticate", wwwAuth) body].
Proof.
  intros req e run.
  destruct (verification_failure_falls_through_to_challenge (fixed_price 5)
              req e "L402 mac:pre" (inl network_error)
              (l402_verify "L402 mac:pre" e).2 run.1.1 run.1.2 run.2)
    as ((log0 & Hissue & Hlog) & Hhandler & _).
  - vm_compute. reflexivity.
  - reflexivity.
  - vm_compute. reflexivity.
  - exact I.
  - apply run_eta.
  - split; [vm_compute; reflexivity|]. split; [exact Hhandler|].
    eexists. vm_compute. reflexivity.
Defined.

End Witnesses.

(** * Further properties of the code *)

(** ** The header codec, beyond the round trip *)

Section CodecCoverage.
Import JsString.

Lemma startsWith_split p s :
  startsWith p s = true -> s = p ++ slice_from (String.length p) s.
Proof.
  revert s. induction p as [|a p IH]; intros s; [done|].
  destruct s as [|b s]; cbn [startsWith]; [done|].
  destruct (Ascii.eqb_spec a b) as [<-|]; [|done].
  intros Hp. rewrite append_cons. cbn [String.length slice_from]. by rewrite <- IH.
Qed.

Lemma startsWith_app p s : startsWith p (p ++ s) = true.
Proof.
  induction p as [|a p IH]; [done|].
  rewrite append_cons. cbn [startsWith]. by rewrite Ascii.eqb_refl.
Qed.

Lemma last_index_split c s i :
  last_index c s = Some i ->
  s = slice_to i s ++ String c (slice_from (Datatypes.S i) s)
  /\ contains_char c (slice_from (Datatypes.S i) s) = false.
Proof.
  revert i. induction s as [|a s IH]; intros i; cbn [last_index]; [done|].
  destruct (last_index c s) as [j|] eqn:Hlast.
  - intros [= <-]. destruct (IH j eq_refl) as [Hs Hfree].
    split; [|exact Hfree].
    change (String a s
            = String a (slice_to j s ++ String c (slice_from (Datatypes.S j) s))).
    by f_equal.
  - destruct (Ascii.eqb_spec a c) as [->|]; [|done]. intros [= <-].
    split; [done|]. change (contains_char c s = false).
    clear IH. induction s as [|b s IH]; [done|]. cbn [last_index] in Hlast.
    destruct (last_index c s); [done|].
    destruct (Ascii.eqb_spec b c); [done|]. cbn [contains_char].
    rewrite IH by done. by destruct (Ascii.eqb_spec b c).
Qed.

Lemma last_index_None c s :
  last_index c s = None -> contains_char c s = false.
Proof.
  induction s as [|a s IH]; [done|]. cbn [last_index contains_char].
  destruct (last_index c s); [done|].
  destruct (Ascii.eqb a c); [done|]. intros _. by rewrite IH.
Qed.

(** What [parseAuthorization] returns, read back: the header is the
    scheme, the macaroon, a colon and the preimage, and that colon is the
    last one. *)
Lemma parseAuthorization_inv header a :
  parseAuthorization header = Some a ->
  formatAuthorization (auth_macaroon a) (auth_preimage a) = header
  /\ contains_char colon (auth_preimage a) = false.
Proof.
  unfold parseAuthorization, lastIndexOf, slice, slice0.
  destruct (startsWith "L402 " header) eqn:Hprefix; [|done]. cbn [negb].
  apply startsWith_split in Hprefix. cbn [String.length] in Hprefix.
  change (Z.to_nat 5) with 5%nat.
  destruct (last_index colon (slice_from 5 header)) as [i|] eqn:Hlast; [|done].
  destruct (Z.eqb_spec (Z.of_nat i) (-1)) as [|_]; [lia|].
  intros [= <-]. cbn [auth_macaroon auth_preimage].
  rewrite Nat2Z.id.
  replace (Z.to_nat (Z.of_nat i + 1)) with (Datatypes.S i) by lia.
  destruct (last_index_split _ _ _ Hlast) as [Hsplit Hfree].
  split; [|done]. unfold formatAuthorization.
  rewrite Hprefix at 3. f_equal. exact (eq_sym Hsplit).
Qed.

(** X1.  [parseAuthorization] splits on the last colon: parsing the
    formatted header gives macaroon and preimage back exactly when the
    preimage holds no colon, whatever the macaroon, colons included. *)
Theorem authorization_round_trip_splits_on_last_colon m p :
  parseAuthorization (formatAuthorization m p)
  = Some {| auth_macaroon := m; auth_preimage := p |}
  <-> contains_char colon p = false.
Proof.
  split.
  - intros Hparsed. apply parseAuthorization_inv in Hparsed as [_ Hfree].
    exact Hfree.
  - apply parseAuthorization_format.
Qed.

Lemma authorization_round_trip_splits_on_last_colon_witness :
  parseAuthorization (formatAuthorization "mac:with:colons" "preimage")
  = Some {| auth_macaroon := "mac:with:colons"; auth_preimage := "preimage" |}
  /\ parseAuthorization (formatAuthorization "mac" "pre:image")
     <> Some {| auth_macaroon := "mac"; auth_preimage := "pre:image" |}.
Proof.
  split.
  - apply (authorization_round_trip_splits_on_last_colon "mac:with:colons" "preimage").
    reflexivity.
  - intros Hparsed.
    apply (authorization_round_trip_splits_on_last_colon "mac" "pre:image") in Hparsed.
    discriminate Hparsed.
Defined.

(** X2.  Whatever [parseAuthorization] accepts is a formatted header:
    formatting the parsed macaroon and preimage gives the header back, so
    that no two headers parse to the same pair, and the parsed preimage
    holds no colon. *)
Theorem parsed_authorization_formats_back header a :
  parseAuthorization header = Some a ->
  formatAuthorization (auth_macaroon a) (auth_preimage a) = header
  /\ contains_char colon (auth_preimage a) = false
  /\ forall header', parseAuthorization header' = Some a -> header' = header.
Proof.
  intros Hparsed. destruct (parseAuthorization_inv _ _ Hparsed) as [Hheader Hfree].
  split_and!; [done|done|].
  intros header' Hparsed'. apply parseAuthorization_inv in Hparsed' as [Hheader' _].
  congruence.
Qed.

Lemma parsed_authorization_formats_back_witness :
  formatAuthorization "a:b" "c" = "L402 a:b:c"
  /\ contains_char colon "c" = false.
Proof.
  destruct (parsed_authorization_formats_back "L402 a:b:c"
              {| auth_macaroon := "a:b"; auth_preimage := "c" |})
    as (Hheader & Hfree & _); [reflexivity|].
  by split.
Defined.

(** X3.  [parseAuthorization] returns null in two cases only: the header
    does not start with the scheme and a space, or what follows holds no
    colon. *)
Theorem parseAuthorization_null_iff header :
  parseAuthorization header = None
  <-> startsWith "L402 " header = false
      \/ contains_char colon (slice 5 header) = false.
Proof.
  unfold parseAuthorization, lastIndexOf.
  destruct (startsWith "L402 " header); cbn [negb]; [|by split; auto].
  destruct (last_index colon (slice 5 header)) as [i|] eqn:Hlast.
  - destruct (Z.eqb_spec (Z.of_nat i) (-1)) as [|_]; [lia|].
    split; [done|]. intros [|Hfree]; [done|].
    by rewrite (last_index_absent _ _ Hfree) in Hlast.
  - split; [|done]. intros _. right. by apply last_index_None.
Qed.


(** *** The patterns of [parseChallenge] on any header *)

Lemma contains_char_app c s t :
  contains_char c (s ++ t) = contains_char c s || contains_char c t.
Proof.
  induction s as [|a s IH]; [done|].
  rewrite append_cons. cbn [contains_char]. rewrite IH. by rewrite orb_assoc.
Qed.

Lemma length_append s t :
  String.length (s ++ t) = (String.length s + String.length t)%nat.
Proof.
  induction s as [|a s IH]; [done|].
  rewrite append_cons. cbn [String.length]. by rewrite IH.
Qed.

Lemma strip_literal_Some lit s r : strip_literal lit s = Some r -> s = lit ++ r.
Proof.
  revert s. induction lit as [|a lit IH]; intros s; cbn [strip_literal].
  - by intros [= ->].
  - destruct s as [|b s]; [done|].
    destruct (Ascii.eqb_spec a b) as [<-|]; [|done].
    intros Hs. rewrite append_cons. by rewrite <- (IH _ Hs).
Qed.

Lemma span_unquoted_spec s :
  s = (span_unquoted s).1 ++ (span_unquoted s).2
  /\ contains_char quote (span_unquoted s).1 = false
  /\ ((span_unquoted s).2 = ""
      \/ exists rest, (span_unquoted s).2 = String quote rest).
Proof.
  induction s as [|a s (Hs & Hfree & Hrest)]; cbn [span_unquoted].
  - split_and!; [done|done|by left].
  - destruct (Ascii.eqb_spec a quote) as [->|Hne].
    + split_and!; [done|done|right; by eexists].
    + destruct (span_unquoted s) as [run rest]. cbn [fst snd] in *.
      split_and!; [by rewrite append_cons, <- Hs| |done].
      cbn [contains_char]. rewrite Hfree. by destruct (Ascii.eqb_spec a quote).
Qed.

(** Two quote-free texts followed by a quote and equal as a whole are
    the same text. *)
Lemma unquoted_prefix_unique x y r r' :
  contains_char quote x = false -> contains_char quote y = false ->
  x ++ String quote r = y ++ String quote r' -> x = y /\ r = r'.
Proof.
  revert y. induction x as [|a x IH]; intros [|b y]; cbn [contains_char];
    rewrite ?append_nil, ?append_cons.
  - by intros _ _ [= ->].
  - intros _ [Hb _]%orb_false_elim [= <- _]. by rewrite Ascii.eqb_refl in Hb.
  - intros [Ha _]%orb_false_elim _ [= -> _]. by rewrite Ascii.eqb_refl in Ha.
  - intros [_ Hx]%orb_false_elim [_ Hy]%orb_false_elim [= <- Heq].
    destruct (IH _ Hx Hy Heq) as [-> ->]. done.
Qed.

(** What a match of the pattern gives: a non-empty, quote-free group,
    found in the header between the literal and a closing quote. *)
Lemma match_here_Some lit s g :
  match_here lit s = Some g ->
  g <> "" /\ contains_char quote g = false
  /\ exists rest, s = lit ++ g ++ String quote rest.
Proof.
  unfold match_here. destruct (strip_literal lit s) as [after|] eqn:Hstrip; [|done].
  apply strip_literal_Some in Hstrip.
  destruct (span_unquoted_spec after) as (Hafter & Hfree & _).
  destruct (span_unquoted after) as [run rest]. cbn [fst snd] in *.
  destruct run as [|c run]; [done|]. destruct rest as [|a rest]; [done|].
  destruct (Ascii.eqb_spec a quote) as [->|]; [|done]. intros [= <-].
  split_and!; [done|done|]. exists rest. by rewrite Hstrip, Hafter.
Qed.

Lemma regex_group_Some lit s g :
  regex_group lit s = Some g ->
  g <> "" /\ contains_char quote g = false
  /\ exists pre rest, s = pre ++ lit ++ g ++ String quote rest.
Proof.
  assert (Hhere : forall t, match_here lit t = Some g ->
            g <> "" /\ contains_char quote g = false
            /\ exists pre rest, t = pre ++ lit ++ g ++ String quote rest).
  { intros t Hm. destruct (match_here_Some _ _ _ Hm) as (? & ? & rest & Ht).
    split_and!; [done..|]. exists "", rest. by rewrite append_nil. }
  induction s as [|a s IH]; cbn [regex_group].
  - destruct (match_here lit "") as [g'|] eqn:Hm; [|done].
    intros [= ->]. by apply Hhere.
  - destruct (match_here lit (String a s)) as [g'|] eqn:Hm.
    + intros [= ->]. by apply Hhere.
    + intros Hg. destruct (IH Hg) as (? & ? & pre & rest & Hs).
      split_and!; [done..|]. exists (String a pre), rest.
      by rewrite append_cons, <- Hs.
Qed.

(** A literal [key] followed by a quote cannot start inside a quote-free
    text [b] that is followed by a quote, unless [b] is [key] itself. *)
Lemma strip_key_at_value key b rest r :
  contains_char quote key = false -> contains_char quote b = false ->
  strip_literal (key ++ String quote "") (b ++ String quote rest) = Some r ->
  b = key.
Proof.
  intros Hkey Hb Hs. apply strip_literal_Some in Hs.
  rewrite append_assoc in Hs. cbn [String.append] in Hs.
  rewrite append_cons, append_nil in Hs.
  by destruct (unquoted_prefix_unique _ _ _ _ Hb Hkey Hs).
Qed.

(** Nor inside a non-empty quote-free text that precedes the attribute
    itself. *)
Lemma strip_key_before_attribute key b c rest r :
  contains_char quote key = false -> contains_char quote (String c b) = false ->
  strip_literal (key ++ String quote "")
    (String c b ++ (key ++ String quote "") ++ rest) = Some r ->
  False.
Proof.
  intros Hkey Hb Hs. apply strip_literal_Some in Hs.
  rewrite !append_assoc in Hs. rewrite (append_cons quote), !append_nil in Hs.
  rewrite <- (append_assoc (String c b)) in Hs.
  assert (Hfree : contains_char quote (String c b ++ key) = false)
    by (rewrite contains_char_app, Hb, Hkey; done).
  destruct (unquoted_prefix_unique _ _ _ _ Hfree Hkey Hs) as [Heq _].
  apply (f_equal String.length) in Heq. rewrite length_append in Heq.
  cbn [String.length] in Heq. lia.
Qed.

Lemma regex_group_scan_value key b rest :
  contains_char quote key = false -> contains_char quote b = false ->
  ~ endsWith b key ->
  regex_group (key ++ String quote "") (b ++ String quote rest)
  = regex_group (key ++ String quote "") (String quote rest).
Proof.
  intros Hkey. induction b as [|a b IH]; [done|].
  intros Hb Hend. rewrite append_cons, regex_group_step.
  - apply IH.
    + cbn [contains_char] in Hb. by apply orb_false_elim in Hb as [_ Hb].
    + intros [pre Hpre]. apply Hend. exists (String a pre).
      by rewrite append_cons, <- Hpre.
  - rewrite <- append_cons. unfold match_here.
    destruct (strip_literal _ _) as [r|] eqn:Hs; [|done].
    apply strip_key_at_value in Hs; [|done..].
    exfalso. apply Hend. exists "". by rewrite Hs.
Qed.

Lemma regex_group_scan_attribute key b g rest :
  contains_char quote key = false -> contains_char quote b = false ->
  g <> "" -> contains_char quote g = false ->
  regex_group (key ++ String quote "")
    (b ++ (key ++ String quote "") ++ g ++ String quote rest)
  = Some g.
Proof.
  intros Hkey Hb Hg Hfree. induction b as [|a b IH].
  - rewrite append_nil. apply regex_group_here. by apply match_here_attribute.
  - rewrite append_cons, regex_group_step.
    + apply IH. cbn [contains_char] in Hb. by apply orb_false_elim in Hb as [_ Hb].
    + rewrite <- append_cons. unfold match_here.
      destruct (strip_literal _ _) as [r|] eqn:Hs; [|done].
      by apply strip_key_before_attribute in Hs.
Qed.

Lemma regex_group_skip_quote key rest :
  key <> "" -> contains_char quote key = false ->
  regex_group (key ++ String quote "") (String quote rest)
  = regex_group (key ++ String quote "") rest.
Proof.
  intros Hne Hkey. apply regex_group_step.
  destruct key as [|a key]; [done|]. rewrite append_cons.
  apply match_here_mismatch. cbn [contains_char] in Hkey.
  by apply orb_false_elim in Hkey as [Ha _].
Qed.

(** X4.  [parseChallenge] accepts the two attributes whatever quote-free
    text separates them and whatever follows the invoice: the macaroon and
    the invoice come back, for a non-empty quote-free macaroon that does
    not end in [invoice=] and a non-empty quote-free invoice. *)
Theorem parseChallenge_accepts_any_separator m i sep tail :
  m <> "" -> i <> "" ->
  contains_char quote m = false -> contains_char quote i = false ->
  contains_char quote sep = false ->
  ~ endsWith m "invoice=" ->
  parseChallenge
    ("L402 " ++ macaroon_literal ++ m
       ++ String quote (sep ++ invoice_literal ++ i ++ String quote tail))
  = Some {| ch_macaroon := m; ch_invoice := i |}.
Proof.
  intros Hm Hi Hqm Hqi Hqs Hend. unfold parseChallenge.
  rewrite startsWith_app. cbn [negb].
  assert (Hmac : regex_group macaroon_literal
                   ("L402 " ++ macaroon_literal ++ m
                      ++ String quote (sep ++ invoice_literal ++ i ++ String quote tail))
                 = Some m).
  { change macaroon_literal with ("macaroon=" ++ String quote "").
    apply (regex_group_scan_attribute "macaroon=" "L402 "); done. }
  assert (Hinv : regex_group invoice_literal
                   ("L402 " ++ macaroon_literal ++ m
                      ++ String quote (sep ++ invoice_literal ++ i ++ String quote tail))
                 = Some i).
  { unfold invoice_literal at 1, macaroon_literal.
    repeat (rewrite append_cons || rewrite append_nil).
    do 15 (rewrite regex_group_step by (apply match_here_mismatch; reflexivity)).
    change (regex_group ("invoice=" ++ String quote "")
              (m ++ String quote (sep ++ invoice_literal ++ i ++ String quote tail))
            = Some i).
    rewrite regex_group_scan_value, regex_group_skip_quote by done.
    change invoice_literal with ("invoice=" ++ String quote "").
    by apply regex_group_scan_attribute. }
  by rewrite Hmac, Hinv.
Qed.

Lemma parseChallenge_accepts_any_separator_witness :
  parseChallenge
    ("L402 " ++ macaroon_literal ++ "mac123"
       ++ String quote (",  " ++ invoice_literal ++ "lnbc500" ++ String quote ""))
  = Some {| ch_macaroon := "mac123"; ch_invoice := "lnbc500" |}.
Proof.
  apply (parseChallenge_accepts_any_separator "mac123" "lnbc500" ",  " "");
    try done.
  intros [pre Hpre]. apply (f_equal String.length) in Hpre.
  rewrite length_append in Hpre. cbn [String.length] in Hpre. lia.
Defined.

(** X5.  The order of the attributes does not matter: with the invoice
    first and the macaroon second, [parseChallenge] returns the same pair,
    for a non-empty quote-free invoice that does not end in [macaroon=]
    and a non-empty quote-free macaroon. *)
Theorem parseChallenge_accepts_invoice_first m i sep tail :
  m <> "" -> i <> "" ->
  contains_char quote m = false -> contains_char quote i = false ->
  contains_char quote sep = false ->
  ~ endsWith i "macaroon=" ->
  parseChallenge
    ("L402 " ++ invoice_literal ++ i
       ++ String quote (sep ++ macaroon_literal ++ m ++ String quote tail))
  = Some {| ch_macaroon := m; ch_invoice := i |}.
Proof.
  intros Hm Hi Hqm Hqi Hqs Hend. unfold parseChallenge.
  rewrite startsWith_app. cbn [negb].
  assert (Hinv : regex_group invoice_literal
                   ("L402 " ++ invoice_literal ++ i
                      ++ String quote (sep ++ macaroon_literal ++ m ++ String quote tail))
                 = Some i).
  { change invoice_literal with ("invoice=" ++ String quote "").
    apply (regex_group_scan_attribute "invoice=" "L402 "); done. }
  assert (Hmac : regex_group macaroon_literal
                   ("L402 " ++ invoice_literal ++ i
                      ++ String quote (sep ++ macaroon_literal ++ m ++ String quote tail))
                 = Some m).
  { unfold macaroon_literal at 1, invoice_literal.
    repeat (rewrite append_cons || rewrite append_nil).
    do 14 (rewrite regex_group_step by (apply match_here_mismatch; reflexivity)).
    change (regex_group ("macaroon=" ++ String quote "")
              (i ++ String quote (sep ++ macaroon_literal ++ m ++ String quote tail))
            = Some m).
    rewrite regex_group_scan_value, regex_group_skip_quote by done.
    change macaroon_literal with ("macaroon=" ++ String quote "").
    by apply regex_group_scan_attribute. }
  by rewrite Hmac, Hinv.
Qed.

Lemma parseChallenge_accepts_invoice_first_witness :
  parseChallenge
    ("L402 " ++ invoice_literal ++ "lnbc1"
       ++ String quote (", " ++ macaroon_literal ++ "abc" ++ String quote ""))
  = Some {| ch_macaroon := "abc"; ch_invoice := "lnbc1" |}.
Proof.
  apply (parseChallenge_accepts_invoice_first "abc" "lnbc1" ", " ""); try done.
  intros [pre Hpre]. apply (f_equal String.length) in Hpre.
  rewrite length_append in Hpre. cbn [String.length] in Hpre. lia.
Defined.

(** X6.  What [parseChallenge] returns is never empty: the header starts
    with the scheme, and each field is a non-empty text without double
    quote that stands in the header between its key and a closing
    quote. *)
Theorem parsed_challenge_fields_are_quoted_in_header header ch :
  parseChallenge header = Some ch ->
  startsWith "L402 " header = true
  /\ ch_macaroon ch <> "" /\ contains_char quote (ch_macaroon ch) = false
  /\ ch_invoice ch <> "" /\ contains_char quote (ch_invoice ch) = false
  /\ includes header (macaroon_literal ++ ch_macaroon ch ++ String quote "")
  /\ includes header (invoice_literal ++ ch_invoice ch ++ String quote "").
Proof.
  unfold parseChallenge. destruct (startsWith "L402 " header); [|done]. cbn [negb].
  destruct (regex_group macaroon_literal header) as [m|] eqn:Hmac; [|done].
  destruct (regex_group invoice_literal header) as [i|] eqn:Hinv; [|done].
  intros [= <-]. cbn [ch_macaroon ch_invoice].
  destruct (regex_group_Some _ _ _ Hmac) as (? & ? & pre1 & rest1 & H1).
  destruct (regex_group_Some _ _ _ Hinv) as (? & ? & pre2 & rest2 & H2).
  split_and!; try done.
  - exists pre1, rest1. rewrite H1 at 1. by rewrite !append_assoc.
  - exists pre2, rest2. rewrite H2 at 1. by rewrite !append_assoc.
Qed.

Lemma parsed_challenge_fields_are_quoted_in_header_witness :
  ch_macaroon (mkChallenge "abc123" "lnbc1...") <> ""
  /\ ch_invoice (mkChallenge "abc123" "lnbc1...") <> "".
Proof.
  destruct (parsed_challenge_fields_are_quoted_in_header
              (formatChallenge "abc123" "lnbc1...") (mkChallenge "abc123" "lnbc1..."))
    as (_ & Hm & _ & Hi & _); [reflexivity|].
  by split.
Defined.

End CodecCoverage.

(** The whole of [l402Fetch], run symbolically. *)
Ltac run_client :=
  unfold l402Fetch, cachedRequest, paidRequest;
  run;
  cbn [app payer_calls requests after_pay payment_of] in *.

(** ** The token store *)

Section StoreCoverage.
Import JsString.

Lemma strip_trailing_slashes_tail s :
  exists tail,
    s = strip_trailing_slashes s ++ tail
    /\ forall c, contains_char c tail = true -> c = "/"%char.
Proof.
  induction s as [|a s (tail & Hs & Htail)]; [by exists ""|].
  cbn [strip_trailing_slashes].
  destruct (strip_trailing_slashes s) as [|b r].
  - rewrite append_nil in Hs. subst tail.
    destruct (Ascii.eqb_spec a "/"%char) as [->|Hne].
    + exists (String "/" s). split; [done|]. intros c. cbn [contains_char].
      intros [Hc|Hc]%orb_true_iff; [by apply Ascii.eqb_eq in Hc|by apply Htail].
    + exists s. by rewrite append_cons, append_nil.
  - exists tail. split; [|done]. by rewrite append_cons, <- Hs.
Qed.

Lemma strip_trailing_slashes_end s pre :
  strip_trailing_slashes s <> pre ++ "/".
Proof.
  revert pre. induction s as [|a s IH]; intros pre; cbn [strip_trailing_slashes].
  - by destruct pre.
  - destruct (strip_trailing_slashes s) as [|b r] eqn:Hs.
    + destruct (Ascii.eqb_spec a "/"%char) as [->|Hne]; [by destruct pre|].
      destruct pre as [|c [|d pre]]; rewrite ?append_cons, ?append_nil; congruence.
    + destruct pre as [|c pre]; rewrite ?append_cons, ?append_nil; [done|].
      intros [= <- Heq]. by apply (IH pre).
Qed.

Context `{UrlApi}.

(** X7.  The cache key of a URL that parses is its serialization without
    query and fragment, cut before its trailing run of slashes: the key
    does not end in a slash, and what was cut holds slashes only.  A URL
    that does not parse is its own key. *)
Theorem normalizeUrl_cuts_trailing_slashes url :
  match URL_new url with
  | Some u =>
      ~ endsWith (normalizeUrl url) "/"
      /\ exists tail,
           URL_toString (URL_set_hash "" (URL_set_search "" u))
           = normalizeUrl url ++ tail
           /\ forall c, contains_char c tail = true -> c = "/"%char
  | None => normalizeUrl url = url
  end.
Proof.
  unfold normalizeUrl. destruct (URL_new url) as [u|]; [|done]. split.
  - intros [pre Hpre]. by apply strip_trailing_slashes_end in Hpre.
  - apply strip_trailing_slashes_tail.
Qed.

End StoreCoverage.

Section SharedKeys.
Context {E : Type} `{Clock E} `{Fetcher E} `{LnBot E} `{UrlApi}.


End SharedKeys.

Section NoStoreCoverage.
Context {C E : Type} `{TokenStore C} `{Clock E} `{Fetcher E} `{LnBot E} `{UrlApi}.

(** X9.  With [store: none] nothing is ever cached: every run finds no
    credential, sends its first request with the caller's own [init], and
    leaves the store as it was, also after a settled payment. *)
Theorem no_store_never_caches options url init
    (st : ClientState (ResolvedStore C) E) out st' log :
  st_store st = resolveStore (Some store_none) ->
  l402Fetch options url init st = (out, st', log) ->
  st_store st' = st_store st
  /\ exists r rest, log = EvStoreGet url None :: EvFetch url init r :: rest.
Proof.
  intros Hnone. revert out st' log. apply wp_elim. run_client.
  all: rewrite Hnone in *; cbn in *; simplify_eq.
  all: split; [done|]; by eexists _, _.
Qed.

End NoStoreCoverage.

(** ** The budget tracker *)

Section BudgetCoverage.
Context {E : Type} `{Clock E}.

Lemma check_passed price b e b1 e1 :
  check price b e = (Ok tt, b1, e1) ->
  totalSats b1 = totalSats b /\ periodMs b1 = periodMs b
  /\ (spent b1 = spent b \/ spent b1 = 0)
  /\ forall total, totalSats b = Some total -> spent b1 + price <= total.
Proof.
  intros Hc. pose proof (check_limits price b e) as [Ht Hp].
  pose proof (check_spent price b e) as Hs. rewrite Hc in Ht, Hp, Hs.
  cbn [fst snd] in *. split_and!; [done..|].
  intros total Htotal. rewrite check_unfold, Htotal in Hc.
  destruct (Z.gtb_spec (spent (maybeReset b e).1 + price) total); simplify_eq. lia.
Qed.

Lemma check_refused price b e err b1 e1 :
  check price b e = (Throw err, b1, e1) ->
  name err = L402BudgetExceededError
  /\ totalSats b1 = totalSats b /\ periodMs b1 = periodMs b
  /\ (spent b1 = spent b \/ spent b1 = 0).
Proof.
  intros Hc. pose proof (check_limits price b e) as [Ht Hp].
  pose proof (check_spent price b e) as Hs. rewrite Hc in Ht, Hp, Hs.
  cbn [fst snd] in *. split_and!; [|done..].
  rewrite check_unfold in Hc. destruct (totalSats b); [|done].
  destruct (_ >? _); by simplify_eq.
Qed.

Lemma record_done price b e b1 e1 :
  record price b e = (b1, e1) ->
  totalSats b1 = totalSats b /\ periodMs b1 = periodMs b
  /\ (spent b1 = spent b + price \/ spent b1 = price).
Proof.
  intros Hr. pose proof (record_limits price b e) as [Ht Hp].
  pose proof (record_spent price b e) as Hs. rewrite Hr in Ht, Hp, Hs. done.
Qed.

(** X10.  A payment that [check] let through and that is then recorded
    keeps the budget within its limit, whatever happened to the clock in
    between (also when the period ends between the two calls): for an
    amount that is not negative and a budget that had spent a non-negative
    amount, [spent] ends between 0 and the limit, and the limit is the
    same. *)
Theorem checked_then_recorded_stays_within_limit price total b e b1 e1 e' b2 e2 :
  totalSats b = Some total ->
  0 <= spent b -> 0 <= price ->
  check price b e = (Ok tt, b1, e1) ->
  record price b1 e' = (b2, e2) ->
  0 <= spent b2 <= total /\ totalSats b2 = Some total.
Proof.
  intros Htotal Hspent Hprice Hc Hr.
  apply check_passed in Hc as (Ht1 & _ & Hs1 & Hle).
  apply record_done in Hr as (Ht2 & _ & Hs2).
  specialize (Hle total Htotal). split; [|congruence]. lia.
Qed.

End BudgetCoverage.

Lemma checked_then_recorded_stays_within_limit_witness :
  let e := Mock.script 1000 [] [] in
  let b := (new_Budget (mkOptions None (Some 100) (Some day)) e).1 in
  0 <= spent (record 60 (check 60 b e).1.2 e).1 <= 100.
Proof.
  intros e b. apply (checked_then_recorded_stays_within_limit 60 100 b e
                       (check 60 b e).1.2 (check 60 b e).2 e
                       (record 60 (check 60 b e).1.2 e).1
                       (record 60 (check 60 b e).1.2 e).2);
    vm_compute; first [reflexivity | discriminate].
Defined.

Lemma normalizeUrl_cuts_trailing_slashes_check :
  @normalizeUrl Mock.Simple_UrlApi "https://api.example.com/data//?q=1#top"
  = "https://api.example.com/data".
Proof. vm_compute. reflexivity. Qed.

(** Membership in a log whose events are known. *)
Ltac in_log H :=
  repeat (apply elem_of_cons in H as [H|H]; [try discriminate H|]);
  try (by apply elem_of_nil in H).

(** ** The client, beyond the claims *)

Section ClientCoverage.
Context {S E : Type} `{TokenStore S} `{Clock E} `{Fetcher E} `{LnBot E}.

Lemma if_truthy_Some_inv o a :
  JsString.if_truthy o = Some a -> o = Some a /\ a <> "".
Proof. destruct o as [[|c s]|]; cbn; intros; by simplify_eq. Qed.

Lemma payer_calls_app l1 l2 :
  payer_calls (l1 ++ l2)%list = (payer_calls l1 ++ payer_calls l2)%list.
Proof.
  induction l1 as [|[] l1 IH]; cbn [app payer_calls]; [done|..]; by rewrite ?IH.
Qed.

(** X11.  A run that no other run of the same client overlaps, that is,
    whose steps act one after the other on the state of the client, as
    [l402Fetch] runs them here, keeps the budget within its limit: from a
    budget whose [spent] lies between 0 and the limit, and when the
    amount recorded for a settled payment lies between 0 and the price
    hint that was checked, [spent] ends between 0 and the limit; the
    limit itself and the period never change.  Runs that overlap are
    not covered, and do exceed the limit:
    [overlapping_runs_exceed_the_limit]. *)
Theorem run_keeps_budget_within_limit options url init
    (st : ClientState S E) out st' log total :
  totalSats (st_budget st) = Some total ->
  0 <= spent (st_budget st) <= total ->
  l402Fetch options url init st = (out, st', log) ->
  (forall res p auth,
      payment_of log = Some (res, p) -> settled_with p auth ->
      0 <= default (price_hint res) (pay_amount p) <= price_hint res) ->
  totalSats (st_budget st') = Some total
  /\ periodMs (st_budget st') = periodMs (st_budget st)
  /\ 0 <= spent (st_budget st') <= total.
Proof.
  intros Htotal Hspent Hrun. revert out st' log Hrun.
  refine (wp_elim _ _ (fun out st' log => _ -> _) _). run_client.
  all: intros Hamount; unfold price_hint in *; cbn [st_budget].
  all: repeat match goal with
         | Hc : check _ _ _ = (Ok tt, _, _) |- _ =>
             apply check_passed in Hc; destruct Hc as (? & ? & ? & Hle)
         | Hc : check _ _ _ = (Throw _, _, _) |- _ =>
             apply check_refused in Hc; destruct Hc as (? & ? & ? & ?)
         | Hr : record _ _ _ = _ |- _ =>
             apply record_done in Hr; destruct Hr as (? & ? & ?)
         end.
  all: tidy.
  all: try match goal with
       | Ht : JsString.if_truthy (pay_authorization ?p) = Some ?a |- _ =>
           pose proof (Hamount _ p a eq_refl (settled_intro _ _ ltac:(eassumption) Ht))
       end.
  all: try match goal with
       | Hle : forall total, _ = Some total -> _ |- _ =>
           specialize (Hle total ltac:(congruence))
       end.
  all: split; [congruence|split; [congruence|destruct_or?; lia]].
Qed.

(** The qualification of X11 is needed.  A run awaits the payer between
    [budget.check] and [budget.record], and the budget is shared by all
    the calls of a client: of two runs that overlap, the second passes
    its check before the first has recorded.  With a limit of 100 and
    two payments of 60 the budget is called in the order check, check,
    record, record, both checks pass, and [spent] ends at 120. *)
Example overlapping_runs_exceed_the_limit :
  let e := Mock.script 1000 [] [] in
  let b0 := (new_Budget (mkOptions None (Some 100) None) e).1 in
  let first_check := check 60 b0 e in
  let second_check := check 60 first_check.1.2 e in
  let first_record := record 60 second_check.1.2 e in
  let second_record := record 60 first_record.1 e in
  first_check.1.1 = Ok tt
  /\ second_check.1.1 = Ok tt
  /\ totalSats second_record.1 = Some 100
  /\ spent second_record.1 = 120.
Proof. vm_compute. by split_and!. Qed.

(** X12.  Without a cached credential a request whose answer is not a
    402 is passed through: the run is the store lookup and that one
    request, its outcome is the answer (or the rejection of [fetch]), and
    neither the budget nor the store is written. *)
Theorem uncached_request_passes_through options url init
    (st : ClientState S E) s1 r e1 :
  ts_get url (st_store st) = (None, s1) ->
  globalThis_fetch url init (st_env st) = (r, e1) ->
  (forall res, r = inr res -> status res <> 402) ->
  l402Fetch options url init st
  = (match r with inl err => Throw err | inr res => Ok res end,
     mkState s1 (st_budget st) e1,
     [EvStoreGet url None; EvFetch url init r]).
Proof.
  intros Hget Hfetch Hst.
  unfold l402Fetch, cachedRequest, paidRequest, bind, storeGet, fetch, ret.
  rewrite Hget. cbn [st_store st_budget st_env app]. rewrite Hfetch.
  destruct r as [err|res]; [done|].
  destruct (Z.eqb_spec (status res) 402) as [Heq|_]; [by destruct (Hst res eq_refl)|].
  done.
Qed.

(** X13.  A 402 response from which no challenge can be read is a
    protocol error: when step 1 does not answer and the response to the
    plain request is a 402 whose challenge header is missing, empty or
    does not parse, the run throws a plain [L402Error] (neither a budget
    nor a payment error), whatever the price hint; the payer is not
    invoked and budget and store are left as step 1 left them. *)
Theorem unreadable_challenge_is_a_protocol_error options url init
    (st st1 : ClientState S E) log1 res e2 :
  cachedRequest url init st = (Ok None, st1, log1) ->
  globalThis_fetch url init (st_env st1) = (inr res, e2) ->
  status res = 402 ->
  (forall wwwAuth ch, ~ challenge_of res wwwAuth ch) ->
  exists msg,
    l402Fetch options url init st
    = (Throw (mkError L402Error msg),
       mkState (st_store st1) (st_budget st) e2,
       (log1 ++ [EvFetch url init (inr res)])%list)
    /\ (JsString.if_truthy (Headers_get "www-authenticate" (resp_headers res)) = None ->
        msg = "402 response missing WWW-Authenticate header")
    /\ (forall w,
          JsString.if_truthy (Headers_get "www-authenticate" (resp_headers res)) = Some w ->
          msg = "Could not parse L402 challenge")
    /\ instanceOf (mkError L402Error msg) L402BudgetExceededError = false
    /\ instanceOf (mkError L402Error msg) L402PaymentFailedError = false
    /\ payer_calls (log1 ++ [EvFetch url init (inr res)])%list = [].
Proof.
  intros Hmiss Hfetch Hst Hno.
  destruct (cachedRequest_effects _ _ _ _ _ _ Hmiss) as [Hbudget Hnopay].
  rewrite (l402Fetch_miss _ _ _ _ _ _ Hmiss), payer_calls_app, Hnopay.
  unfold paidRequest, bind, fetch. rewrite Hfetch, Hst, Hbudget.
  cbn [negb Z.eqb Pos.eqb st_store st_budget].
  destruct (JsString.if_truthy _) as [w|] eqn:Hhdr.
  - destruct (parseChallenge w) as [ch|] eqn:Hparse.
    + apply if_truthy_Some_inv in Hhdr as [Hhdr Hne].
      by destruct (Hno w ch).
    + eexists. split; [reflexivity|]. done.
  - eexists. split; [reflexivity|]. done.
Qed.

(** X14.  A payment that does not settle costs nothing and caches
    nothing: when the payer answers with status [failed], or without an
    authorization, the run throws an [L402PaymentFailedError] right
    after the payer call; there is no [store.set], no retry, and nothing
    is recorded against the budget, which is as [check] left it. *)
Theorem unsettled_payment_is_not_recorded options url init
    (st : ClientState S E) out st' log www p :
  l402Fetch options url init st = (out, st', log) ->
  (www, inr p) ∈ payer_calls log ->
  (forall auth, ~ settled_with p auth) ->
  (exists msg,
      out = Throw (mkError L402PaymentFailedError msg)
      /\ (pay_status p = "failed" -> msg = "L402 payment failed")
      /\ (pay_status p <> "failed" ->
          msg = "Payment did not return authorization token"))
  /\ after_pay log = []
  /\ (forall u tok, EvStoreSet u tok ∉ log)
  /\ (spent (st_budget st') = spent (st_budget st) \/ spent (st_budget st') = 0)
  /\ (periodMs (st_budget st) = None -> st_budget st' = st_budget st).
Proof.
  intros Hrun Hin Hfail. revert out st' log Hrun Hin.
  refine (wp_elim _ _ (fun out st' log => _ -> _) _). run_client.
  all: intros Hin; try (by apply elem_of_nil in Hin).
  all: apply list_elem_of_singleton in Hin; simplify_eq; tidy.
  all: try (by destruct (Hfail _ (settled_intro _ _ ltac:(eassumption) ltac:(eassumption)))).
  all: match goal with
       | Hc : check _ _ _ = _ |- _ => apply check_eq in Hc; destruct Hc as (? & ? & ?)
       end.
  all: cbn [st_budget].
  all: split_and!; [eexists; split_and!; [reflexivity|done..]|done| |done|done].
  all: intros u tok Hset; in_log Hset.
Qed.


(** X15.  A rejection of [fetch] or of the payer ends the run with that
    very error, unchanged and unwrapped, and nothing is done after it:
    the rejected call is the last event of the log. *)
Theorem platform_errors_propagate_unchanged options url init
    (st : ClientState S E) out st' log ev err :
  l402Fetch options url init st = (out, st', log) ->
  ev ∈ log ->
  (exists u i, ev = EvFetch u i (inl err)) \/ (exists w, ev = EvPay w (inl err)) ->
  out = Throw err /\ last log = Some ev.
Proof.
  intros Hrun Hin Hev. revert out st' log Hrun Hin.
  refine (wp_elim _ _ (fun out st' log => _ -> _) _). run_client.
  all: intros Hin; in_log Hin; subst ev.
  all: destruct Hev as [(u & i & Hev)|(w & Hev)]; by simplify_eq.
Qed.



Lemma l402Fetch_requests options url init (st : ClientState S E) out st' log :
  l402Fetch options url init st = (out, st', log) ->
  (length (requests log) <= 3)%nat
  /\ forall u i r, (u, i, r) ∈ requests log ->
       u = url /\ (i = init \/ exists a, i = with_authorization init a).
Proof.
  revert out st' log. apply wp_elim. run_client. all: tidy_headers.
  all: split; [cbn [length]; lia|].
  all: intros u i ans Hin; in_log Hin; simplify_eq; eauto.
Qed.

(** X17.  A run sends at most three requests, all to the URL it was
    given, and each of them is the caller's request: either with the
    caller's own [init], or with the same method, the same body and the
    same headers, except for [Authorization], which is set. *)
Theorem requests_are_the_callers_request options url init
    (st : ClientState S E) out st' log :
  l402Fetch options url init st = (out, st', log) ->
  (length (requests log) <= 3)%nat
  /\ forall u i r, (u, i, r) ∈ requests log ->
       u = url
       /\ (i = init
           \/ exists a ri,
                i = Some ri
                /\ init_method ri = init ≫= init_method
                /\ init_body ri = init ≫= init_body
                /\ Headers_get "Authorization" (init_headers ri) = Some a
                /\ forall n, JsString.toLowerCase n <> "authorization" ->
                     Headers_get n (init_headers ri) = Headers_get n (Headers_new init)).
Proof.
  intros Hrun. destruct (l402Fetch_requests _ _ _ _ _ _ _ Hrun) as [Hlen Hshape].
  split; [done|]. intros u i r Hin. destruct (Hshape u i r Hin) as [-> [->|[a ->]]].
  - by split; [|left].
  - split; [done|]. right.
    destruct (with_authorization_carries init a) as (ri & Hri & Ha & Hm & Hb & Hh).
    by exists (headerValueNormalize a), ri.
Qed.

(** X18.  The store is written only for a settled payment, under the
    URL of the run, and the token that is written comes from that
    payment: its authorization is the payer's; its macaroon is the one in
    that authorization, or the one of the challenge when the
    authorization does not parse; its preimage is the payer's, else the
    one in the authorization, else empty; its expiry is the one the 402
    body announces; its [paidAt] is the reading of the clock right after
    the payer has answered. *)
Theorem stored_token_comes_from_the_payment options url init
    (st : ClientState S E) out st' log u tok :
  l402Fetch options url init st = (out, st', log) ->
  EvStoreSet u tok ∈ log ->
  u = url
  /\ exists www ch res p,
       payer_calls log = [(www, inr p)]
       /\ payment_of log = Some (res, p)
       /\ challenge_of res www ch
       /\ settled_with p (authorization tok)
       /\ macaroon tok
          = match parseAuthorization (authorization tok) with
            | Some a => auth_macaroon a
            | None => ch_macaroon ch
            end
       /\ preimage tok
          = match pay_preimage p, parseAuthorization (authorization tok) with
            | Some pre, _ => pre
            | None, Some a => auth_preimage a
            | None, None => ""
            end
       /\ expiresAt tok = resp_json res ≫= body_expiresAt
       /\ exists e3 e4,
            l402_pay www e3 = (inr p, e4)
            /\ paidAt tok = ValidDate (Date_now e4).1.
Proof.
  intros Hrun Hin. revert out st' log Hrun Hin.
  refine (wp_elim _ _ (fun out st' log => _ -> _) _). run_client.
  all: intros Hin; in_log Hin; simplify_eq; tidy.
  all: split; [done|]; eexists _, _, _, _.
  all: cbn [authorization macaroon preimage expiresAt paidAt].
  all: repeat match goal with
         | Ht : JsString.if_truthy _ = Some _ |- _ =>
             apply if_truthy_Some_inv in Ht; destruct Ht as [? ?]
         end.
  all: split_and!; [reflexivity|reflexivity|by split_and!|by split_and!| | |done|].
  all: try (by repeat case_match).
  all: match goal with
       | Hp : l402_pay _ ?e3 = (inr _, ?e4), Hn : Date_now ?e4 = (_, _) |- _ =>
           exists e3, e4; split; [exact Hp|by rewrite Hn]
       end.
Qed.

(** X19.  The payer is invoked only within the limits: every payer call
    of a run directly follows a 402 response to the plain request whose
    challenge parses, is made with the challenge header of that
    response, and has passed both the per-request ceiling and the
    cumulative check, on [spent] as the lazy reset left it. *)
Theorem payer_is_invoked_only_within_limits options url init
    (st : ClientState S E) out st' log www r :
  l402Fetch options url init st = (out, st', log) ->
  (www, r) ∈ payer_calls log ->
  exists res ch pre rest,
    log = (pre ++ EvFetch url init (inr res) :: EvPay www r :: rest)%list
    /\ payer_calls pre = []
    /\ challenge_of res www ch
    /\ price_hint res <= default 1000 (maxPrice options)
    /\ (forall total, totalSats (st_budget st) = Some total ->
          spent (st_budget st) + price_hint res <= total
          \/ price_hint res <= total)
    /\ (forall total, totalSats (st_budget st) = Some total ->
          periodMs (st_budget st) = None ->
          spent (st_budget st) + price_hint res <= total).
Proof.
  intros Hrun Hin. revert out st' log Hrun Hin.
  refine (wp_elim _ _ (fun out st' log => _ -> _) _). run_client.
  all: intros Hin; try (by apply elem_of_nil in Hin).
  all: apply list_elem_of_singleton in Hin; simplify_eq; tidy.
  all: repeat match goal with
         | Ht : JsString.if_truthy (Headers_get _ _) = Some _ |- _ =>
             apply if_truthy_Some_inv in Ht; destruct Ht as [? ?]
         end.
  all: match goal with
       | Hc : check _ _ _ = (Ok tt, _, _) |- _ =>
           pose proof (check_eq _ _ _ _ _ _ Hc) as (_ & _ & Hsame);
           apply check_passed in Hc; destruct Hc as (_ & _ & Hs & Hle)
       end.
  all: cbn [st_budget] in *; unfold price_hint.
  all: first [ eexists _, _, [_], _; split; [reflexivity|]
             | eexists _, _, [_; _], _; split; [reflexivity|]
             | eexists _, _, [_; _; _], _; split; [reflexivity|] ].
  all: split_and!; [reflexivity|by split_and!|lia| |].
  all: intros total Htotal; specialize (Hle total Htotal).
  all: try (destruct Hs as [Hs|Hs]; [left|right]; lia).
  all: intros Hnone; rewrite (Hsame Hnone) in Hle; lia.
Qed.

End ClientCoverage.

Section BuiltInStores.
Context {C E : Type} `{TokenStore C} `{Clock E} `{Fetcher E} `{LnBot E} `{UrlApi}.


End BuiltInStores.

(** Two answers to the same call or lookup are the same. *)
Ltac same_answers :=
  repeat match goal with
    | H1 : ?x = _, H2 : ?x = _ |- _ => rewrite H1 in H2; simplify_eq
    end.

(** ** The paywall, beyond the claims *)

Section PaywallCoverage.
Import Paywall.
Context {E : Type} `{LnBot E} `{NextFunction E}.
Implicit Types (st : Request * E).

Lemma wp_verify a st (Q : Result VerifyResult -> _ -> _ -> Prop) :
  (forall r e1, l402_verify a st.2 = (r, e1) ->
     Q (match r with inl err => Throw err | inr v => Ok v end) (st.1, e1)
       [EvVerify a r]) ->
  wp (verify a) st Q.
Proof.
  unfold wp, verify. intros Hq.
  destruct (l402_verify a st.2) as [r e1]. now apply Hq.
Qed.

Lemma wp_set_l402 data st (Q : Result unit -> _ -> _ -> Prop) :
  Q (Ok tt) ({| req_headers := req_headers st.1; req_path := req_path st.1;
                req_l402 := Some data |}, st.2) [] ->
  wp (set_l402 data) st Q.
Proof. done. Qed.


(** The ways through steps 1 and 2: the handler took the request, or
    the challenge path runs, after no verification, a failed one, or a
    valid one whose [next()] threw. *)
Lemma paywall_cases (options : L402PaywallOptions E) req e out st' log :
  paywall options (req, e) = (out, st', log) ->
  (exists a v e1 e2,
      req_headers req !! "authorization" = Some a
      /\ JsString.startsWith "L402 " a = true
      /\ l402_verify a e = (inr v, e1) /\ valid v = true
      /\ express_next None e1 = (None, e2)
      /\ out = Ok tt /\ st' = (admitted req v, e2)
      /\ log = [EvVerify a (inr v); EvNext None])
  \/ (exists pre req1 e1 log0,
        issueChallenge options (req1, e1) = (out, st', log0)
        /\ log = (pre ++ log0)%list
        /\ ((pre = [] /\ req1 = req /\ e1 = e
             /\ forall a, req_headers req !! "authorization" = Some a ->
                  JsString.startsWith "L402 " a = false)
            \/ (exists a r,
                  req_headers req !! "authorization" = Some a
                  /\ JsString.startsWith "L402 " a = true
                  /\ l402_verify a e = (r, e1) /\ verification_failed r
                  /\ pre = [EvVerify a r] /\ req1 = req)
            \/ (exists a v e0 thrown,
                  req_headers req !! "authorization" = Some a
                  /\ JsString.startsWith "L402 " a = true
                  /\ l402_verify a e = (inr v, e0) /\ valid v = true
                  /\ express_next None e0 = (Some thrown, e1)
                  /\ pre = [EvVerify a (inr v); EvNext None]
                  /\ req1 = admitted req v))).
Proof.
  revert out st' log. apply wp_elim.
  match goal with |- wp _ _ ?Q => change (wp (bind
                (match JsString.if_truthy (req_headers req !! "authorization") with
                 | Some authHeader =>
                     if JsString.startsWith "L402 " authHeader then
                       try_catch
                         (bind (verify authHeader) (fun result =>
                            if valid result then
                              bind (set_l402 {| paymentHash := v_paymentHash result;
                                                caveats := v_caveats result |})
                                (fun _ => bind (next None) (fun _ => ret true))
                            else ret false))
                         (fun _ => ret false)
                     else ret false
                 | None => ret false
                 end)
                (fun returned : bool =>
                   if returned then ret tt else issueChallenge options))
            (req, e) Q) end.
  apply wp_bind.
  destruct (JsString.if_truthy (req_headers req !! "authorization")) as [a|] eqn:Hhdr.
  - apply if_truthy_Some_inv in Hhdr as [Hhdr Hne].
    destruct (JsString.startsWith "L402 " a) eqn:Hpre.
    + apply wp_try_catch, wp_bind, wp_verify. cbn [fst snd].
      intros [err|v] e1 Hver.
      * apply wp_ret, wp_intro. intros out st' log Hissue.
        right. exists [EvVerify a (inl err)], req, e1, log.
        split_and!; [done|done|]. right; left. by exists a, (inl err).
      * destruct (valid v) eqn:Hvalid.
        -- apply wp_bind, wp_set_l402, wp_bind, wp_next. cbn [fst snd].
           intros [thrown|] e2 Hnext.
           ++ apply wp_ret, wp_intro. intros out st' log Hissue.
              right. exists [EvVerify a (inr v); EvNext None], (admitted req v), e2, log.
              split_and!; [done|done|]. right; right. by exists a, v, e1, thrown.
           ++ apply wp_ret, wp_ret. left. by exists a, v, e1, e2.
        -- apply wp_ret, wp_intro. intros out st' log Hissue.
           right. exists [EvVerify a (inr v)], req, e1, log.
           split_and!; [done|done|]. right; left. by exists a, (inr v).
    + apply wp_ret, wp_intro. intros out st' log Hissue.
      right. exists [], req, e, log. split_and!; [done|done|]. left.
      split_and!; [done..|]. intros a' Ha'. by simplify_eq.
  - apply wp_ret, wp_intro. intros out st' log Hissue.
    right. exists [], req, e, log. split_and!; [done|done|]. left.
    split_and!; [done..|]. intros a Ha. rewrite Ha in Hhdr.
    destruct a; [done|discriminate Hhdr].
Qed.


(** The challenge path, call by call. *)
Lemma issueChallenge_run (options : L402PaywallOptions E) req e out st' log :
  issueChallenge options (req, e) = (out, st', log) ->
  (exists f err e1,
      price options = inr f /\ f req e = (inl err, e1)
      /\ out = Throw err /\ st' = (req, e1) /\ log = [])
  \/ exists n e1 r e2,
       match price options with
       | inl m => n = m /\ e1 = e
       | inr f => f req e = (inr n, e1)
       end
       /\ l402_createChallenge
            {| cr_amount := n;
               cr_description := description options;
               cr_expirySeconds := expirySeconds options;
               cr_caveats := opt_caveats options |} e1 = (r, e2)
       /\ match r with
          | inr ch =>
              out = Ok tt /\ st' = (req, e2)
              /\ log = [EvCreateChallenge
                          {| cr_amount := n;
                             cr_description := description options;
                             cr_expirySeconds := expirySeconds options;
                             cr_caveats := opt_caveats options |} (inr ch);
                        EvRespond 402 ("WWW-Authenticate", c_wwwAuthenticate ch)
                          {| pr_type := "payment_required";
                             pr_title := "Payment Required";
                             pr_detail :=
                               "Pay the included Lightning invoice to access this resource.";
                             pr_invoice := c_invoice ch;
                             pr_macaroon := c_macaroon ch;
                             pr_price := n;
                             pr_unit := "satoshis";
                             pr_description := description options |}]
          | inl err =>
              log = [EvCreateChallenge
                       {| cr_amount := n;
                          cr_description := description options;
                          cr_expirySeconds := expirySeconds options;
                          cr_caveats := opt_caveats options |} (inl err);
                     EvNext (Some err)]
              /\ out = match (express_next (Some err) e2).1 with
                       | Some thrown => Throw thrown
                       | None => Ok tt
                       end
              /\ st' = (req, (express_next (Some err) e2).2)
          end.
Proof.
  revert out st' log. apply wp_elim. unfold issueChallenge.
  match goal with |- wp _ _ ?Q => set (Post := Q) end.
  assert (Hminted : forall n e1,
    match price options with
    | inl m => n = m /\ e1 = e
    | inr f => f req e = (inr n, e1)
    end ->
    wp (try_catch
          (bind (createChallenge
                   {| cr_amount := n;
                      cr_description := description options;
                      cr_expirySeconds := expirySeconds options;
                      cr_caveats := opt_caveats options |})
             (fun challenge =>
                respond 402 ("WWW-Authenticate", c_wwwAuthenticate challenge)
                  {| pr_type := "payment_required";
                     pr_title := "Payment Required";
                     pr_detail :=
                       "Pay the included Lightning invoice to access this resource.";
                     pr_invoice := c_invoice challenge;
                     pr_macaroon := c_macaroon challenge;
                     pr_price := n;
                     pr_unit := "satoshis";
                     pr_description := description options |}))
          (fun err => next (Some err)))
       (req, e1)
       (fun out st' log => Post out st' ([] ++ log)%list)).
  { intros n e1 Hprice. subst Post. apply wp_try_catch, wp_bind, wp_createChallenge.
    cbn [fst snd]. intros [err|ch] e2 Hmint.
    - apply wp_next. cbn [fst snd]. intros r e3 Hnext. right.
      exists n, e1, (inl err), e2. rewrite Hnext. by split_and!.
    - apply wp_respond. right. exists n, e1, (inr ch), e2. by split_and!. }
  apply wp_bind, wp_resolvePrice.
  destruct (price options) as [m|f] eqn:Hprice.
  - by apply Hminted.
  - cbn [fst snd]. intros [err|n] e1 Hf.
    + left. by exists f, err, e1.
    + by apply Hminted.
Qed.

(** X20.  A valid credential opens the gate: the header is verified
    once, the payment hash and the caveats of the verification are put
    on the request, the protected handler is called, and no challenge is
    minted and no response is sent by the middleware. *)
Theorem valid_credential_reaches_the_handler
    (options : L402PaywallOptions E) req e a v e1 e2 :
  req_headers req !! "authorization" = Some a ->
  JsString.startsWith "L402 " a = true ->
  l402_verify a e = (inr v, e1) ->
  valid v = true ->
  express_next None e1 = (None, e2) ->
  paywall options (req, e)
  = (Ok tt,
     ({| req_headers := req_headers req;
         req_path := req_path req;
         req_l402 := Some {| paymentHash := v_paymentHash v;
                             caveats := v_caveats v |} |}, e2),
     [EvVerify a (inr v); EvNext None]).
Proof.
  intros Hhdr Hpre Hver Hvalid Hnext.
  destruct (paywall options (req, e)) as [[out st'] log] eqn:Hrun.
  apply paywall_cases in Hrun
    as [(a' & v' & e1' & e2' & Ha & _ & Hv & _ & Hn & -> & -> & ->)
       |(pre & req1 & e1' & log0 & _ & _
         & [(_ & _ & _ & Hno)
           |[(a' & r & Ha & _ & Hv & Hfail & _)
            |(a' & v' & e0 & thrown & Ha & _ & Hv & _ & Hn & _)]])].
  - by same_answers.
  - rewrite (Hno a Hhdr) in Hpre. discriminate Hpre.
  - same_answers. cbn in Hfail. congruence.
  - same_answers.
Qed.

(** X21.  The call of the protected handler stands inside the [try]
    block of the verification: when [next()] throws after a valid
    verification, the error is dropped and the middleware goes on to the
    challenge path, so that the client is answered like one without
    credential. *)
Theorem handler_error_leads_to_a_challenge
    (options : L402PaywallOptions E) req e a v e1 thrown e2 :
  req_headers req !! "authorization" = Some a ->
  JsString.startsWith "L402 " a = true ->
  l402_verify a e = (inr v, e1) ->
  valid v = true ->
  express_next None e1 = (Some thrown, e2) ->
  paywall options (req, e)
  = let '(out, st', log) :=
      issueChallenge options
        ({| req_headers := req_headers req;
            req_path := req_path req;
            req_l402 := Some {| paymentHash := v_paymentHash v;
                                caveats := v_caveats v |} |}, e2) in
    (out, st', EvVerify a (inr v) :: EvNext None :: log).
Proof.
  intros Hhdr Hpre Hver Hvalid Hnext.
  destruct (paywall options (req, e)) as [[out st'] log] eqn:Hrun.
  apply paywall_cases in Hrun
    as [(a' & v' & e1' & e2' & Ha & _ & Hv & _ & Hn & -> & -> & ->)
       |(pre & req1 & e1' & log0 & Hissue & -> 
         & [(_ & _ & _ & Hno)
           |[(a' & r & Ha & _ & Hv & Hfail & _)
            |(a' & v' & e0 & thrown' & Ha & _ & Hv & _ & Hn & -> & ->)]])].
  - same_answers.
  - rewrite (Hno a Hhdr) in Hpre. discriminate Hpre.
  - same_answers. cbn in Hfail. congruence.
  - same_answers. unfold admitted in Hissue. by rewrite Hissue.
Qed.

Lemma issueChallenge_no_verify (options : L402PaywallOptions E) req e out st' log a r :
  issueChallenge options (req, e) = (out, st', log) -> EvVerify a r ∉ log.
Proof.
  intros Hrun. apply issueChallenge_outcomes in Hrun
    as [(err & _ & ->)|[(price & args & ch & _ & _ & ->)|(args & err & ->)]].
  all: intros Hin; in_log Hin.
Qed.

(** A call of the verifier, in the log of the middleware. *)
Lemma paywall_verify_event
    (options : L402PaywallOptions E) req e out st' log a r :
  paywall options (req, e) = (out, st', log) ->
  EvVerify a r ∈ log ->
  req_headers req !! "authorization" = Some a
  /\ JsString.startsWith "L402 " a = true
  /\ (l402_verify a e).1 = r
  /\ exists rest, log = EvVerify a r :: rest /\ forall a' r', EvVerify a' r' ∉ rest.
Proof.
  intros Hrun Hin.
  apply paywall_cases in Hrun
    as [(a' & v' & e1' & e2' & Ha & Hp & Hv & _ & Hn & -> & -> & ->)
       |(pre & req1 & e1' & log0 & Hissue & -> 
         & [(-> & _)
           |[(a' & r' & Ha & Hp & Hv & _ & -> & ->)
            |(a' & v' & e0 & thrown' & Ha & Hp & Hv & _ & Hn & -> & ->)]])].
  - in_log Hin. simplify_eq. split_and!; [done|done|by rewrite Hv|].
    eexists. split; [reflexivity|]. intros a'' r'' Hin'. in_log Hin'.
  - by apply (issueChallenge_no_verify _ _ _ _ _ _ _ _ Hissue) in Hin.
  - apply elem_of_cons in Hin as [Hin|Hin];
      [|by apply (issueChallenge_no_verify _ _ _ _ _ _ _ _ Hissue) in Hin].
    simplify_eq. split_and!; [done|done|by rewrite Hv|].
    exists log0. split; [done|]. intros a'' r''.
    apply (issueChallenge_no_verify _ _ _ _ _ _ _ _ Hissue).
  - cbn [app] in Hin. apply elem_of_cons in Hin as [Hin|Hin].
    + simplify_eq. split_and!; [done|done|by rewrite Hv|].
      eexists. split; [reflexivity|]. intros a'' r'' Hin'.
      apply elem_of_cons in Hin' as [Hin'|Hin']; [done|].
      by apply (issueChallenge_no_verify _ _ _ _ _ _ _ _ Hissue) in Hin'.
    + apply elem_of_cons in Hin as [Hin|Hin]; [done|].
      by apply (issueChallenge_no_verify _ _ _ _ _ _ _ _ Hissue) in Hin.
Qed.

(** X22.  The verifier is consulted only for an [Authorization] header
    that starts with the L402 scheme, with that header, and once, before
    anything else: a request without the header, or with another scheme,
    goes to the challenge without any verification, its run being that
    of the challenge path. *)
Theorem verifier_is_consulted_only_for_L402_credentials
    (options : L402PaywallOptions E) req e out st' log :
  paywall options (req, e) = (out, st', log) ->
  (forall a r, EvVerify a r ∈ log ->
     req_headers req !! "authorization" = Some a
     /\ JsString.startsWith "L402 " a = true
     /\ (l402_verify a e).1 = r
     /\ exists rest, log = EvVerify a r :: rest /\ forall a' r', EvVerify a' r' ∉ rest)
  /\ ((forall a, req_headers req !! "authorization" = Some a ->
                 JsString.startsWith "L402 " a = false) ->
      issueChallenge options (req, e) = (out, st', log)
      /\ forall a r, EvVerify a r ∉ log).
Proof.
  intros Hrun. split.
  - intros a r Hin. by apply (paywall_verify_event _ _ _ _ _ _ _ _ Hrun).
  - intros Hno.
    apply paywall_cases in Hrun
      as [(a & v & e1 & e2 & Ha & Hp & _)
         |(pre & req1 & e1 & log0 & Hissue & -> 
           & [(-> & -> & -> & _)
             |[(a & r & Ha & Hp & _)
              |(a & v & e0 & thrown & Ha & Hp & _)]])].
    2: { split; [done|]. intros a r.
         apply (issueChallenge_no_verify _ _ _ _ _ _ _ _ Hissue). }
    all: rewrite (Hno a Ha) in Hp; discriminate Hp.
Qed.

Lemma paywall_challenge_path (options : L402PaywallOptions E) req e out st' log :
  paywall options (req, e) = (out, st', log) ->
  (forall ev, ev ∈ log -> (exists a r, ev = EvVerify a r) \/ ev = EvNext None)
  \/ exists pre req1 e1 log0,
       issueChallenge options (req1, e1) = (out, st', log0)
       /\ log = (pre ++ log0)%list
       /\ (forall ev, ev ∈ pre -> (exists a r, ev = EvVerify a r) \/ ev = EvNext None)
       /\ req_headers req1 = req_headers req /\ req_path req1 = req_path req.
Proof.
  intros Hrun.
  apply paywall_cases in Hrun
    as [(a' & v' & e1' & e2' & Ha & Hp & Hv & _ & Hn & -> & -> & ->)
       |(pre & req1 & e1' & log0 & Hissue & -> & Hpre)].
  - left. intros ev Hin. in_log Hin; subst ev; eauto.
  - right. exists pre, req1, e1', log0. split_and!; [done|done|..].
    all: destruct Hpre as [(-> & -> & _)|[(? & ? & _ & _ & _ & _ & -> & ->)
                          |(? & ? & ? & ? & _ & _ & _ & _ & _ & -> & ->)]]; try done.
    all: intros ev Hin; in_log Hin; subst ev; eauto.
Qed.

(** X23.  The only response the middleware sends is the 402 of a
    freshly minted challenge, and it is the last thing it does: the
    status is 402, the [WWW-Authenticate] header is the one the SDK
    returned, the body carries the invoice and the macaroon of that
    challenge, and its price is the amount that was asked of
    [createChallenge], together with the configured description, expiry
    and caveats; that amount is the configured price when the price is a
    number. *)
Theorem response_is_the_minted_challenge
    (options : L402PaywallOptions E) req e out st' log code hdr body :
  paywall options (req, e) = (out, st', log) ->
  EvRespond code hdr body ∈ log ->
  code = 402 /\ out = Ok tt
  /\ exists pre ch,
       log = (pre ++ [EvCreateChallenge
                        {| cr_amount := pr_price body;
                           cr_description := description options;
                           cr_expirySeconds := expirySeconds options;
                           cr_caveats := opt_caveats options |} (inr ch);
                      EvRespond code hdr body])%list
       /\ (forall code' hdr' body', EvRespond code' hdr' body' ∉ pre)
       /\ hdr = ("WWW-Authenticate", c_wwwAuthenticate ch)
       /\ pr_invoice body = c_invoice ch
       /\ pr_macaroon body = c_macaroon ch
       /\ pr_type body = "payment_required"
       /\ pr_unit body = "satoshis"
       /\ pr_description body = description options
       /\ (forall n, price options = inl n -> pr_price body = n).
Proof.
  intros Hrun Hin.
  apply paywall_challenge_path in Hrun
    as [Hnone|(pre & req1 & e1 & log0 & Hissue & -> & Hpre & _)].
  { destruct (Hnone _ Hin) as [(? & ? & ?)|?]; discriminate. }
  assert (Hnot : forall code' hdr' body', EvRespond code' hdr' body' ∉ pre).
  { intros code' hdr' body' Hin'.
    destruct (Hpre _ Hin') as [(? & ? & ?)|?]; discriminate. }
  apply elem_of_app in Hin as [Hin|Hin]; [by apply Hnot in Hin|].
  apply issueChallenge_run in Hissue
    as [(f & err & e2 & _ & _ & _ & _ & ->)|(n & e2 & r & e3 & Hprice & _ & Hr)].
  { by apply elem_of_nil in Hin. }
  destruct r as [err|ch].
  { destruct Hr as (-> & _). in_log Hin. }
  destruct Hr as (-> & _ & ->). in_log Hin. simplify_eq.
  split_and!; [done|done|]. exists pre, ch. cbn [pr_price pr_invoice pr_macaroon
    pr_type pr_unit pr_description]. split_and!; try done.
  intros m Hm. rewrite Hm in Hprice. by destruct Hprice.
Qed.

(** X24.  When [createChallenge] rejects, the error is handed to the
    error handling of the stack through [next(err)], which is the last
    call of the run, and no response is sent. *)
Theorem mint_failure_goes_to_the_error_handler
    (options : L402PaywallOptions E) req e out st' log args err :
  paywall options (req, e) = (out, st', log) ->
  EvCreateChallenge args (inl err) ∈ log ->
  (exists pre, log = (pre ++ [EvCreateChallenge args (inl err); EvNext (Some err)])%list)
  /\ (forall code hdr body, EvRespond code hdr body ∉ log)
  /\ cr_description args = description options
  /\ cr_expirySeconds args = expirySeconds options
  /\ cr_caveats args = opt_caveats options.
Proof.
  intros Hrun Hin.
  apply paywall_challenge_path in Hrun
    as [Hnone|(pre & req1 & e1 & log0 & Hissue & -> & Hpre & _)].
  { destruct (Hnone _ Hin) as [(? & ? & ?)|?]; discriminate. }
  assert (Hnot : forall code' hdr' body', EvRespond code' hdr' body' ∉ pre).
  { intros code' hdr' body' Hin'.
    destruct (Hpre _ Hin') as [(? & ? & ?)|?]; discriminate. }
  apply elem_of_app in Hin as [Hin|Hin].
  { destruct (Hpre _ Hin) as [(? & ? & ?)|?]; discriminate. }
  apply issueChallenge_run in Hissue
    as [(f & err' & e2 & _ & _ & _ & _ & ->)|(n & e2 & r & e3 & Hprice & _ & Hr)].
  { by apply elem_of_nil in Hin. }
  destruct r as [err'|ch].
  - destruct Hr as (-> & _). in_log Hin. simplify_eq.
    split_and!; [by exists pre| |done..].
    intros code hdr body [Hr|Hr]%elem_of_app; [by apply Hnot in Hr|in_log Hr].
  - destruct Hr as (_ & _ & ->). in_log Hin.
Qed.

(** X25.  The price is resolved outside the [try] block: when the
    pricing function throws for a request without L402 credential, the
    middleware rejects with that error and has called neither the SDK nor
    [next], nor sent a response. *)
Theorem pricing_error_rejects_the_middleware
    (options : L402PaywallOptions E) req e f err e1 :
  (forall a, req_headers req !! "authorization" = Some a ->
             JsString.startsWith "L402 " a = false) ->
  price options = inr f ->
  f req e = (inl err, e1) ->
  paywall options (req, e) = (Throw err, (req, e1), []).
Proof.
  intros Hno Hprice Hf.
  destruct (paywall options (req, e)) as [[out st'] log] eqn:Hrun.
  apply paywall_cases in Hrun
    as [(a & v & e2 & e3 & Ha & Hp & _)
       |(pre & req1 & e2 & log0 & Hissue & -> 
         & [(-> & -> & -> & _)
           |[(a & r & Ha & Hp & _)
            |(a & v & e0 & thrown & Ha & Hp & _)]])].
  2: { apply issueChallenge_run in Hissue
         as [(f' & err' & e3 & Hprice' & Hf' & -> & -> & ->)
            |(n & e3 & r & e4 & Hprice' & _)].
       - rewrite Hprice in Hprice'. simplify_eq. by same_answers.
       - rewrite Hprice in Hprice'. by same_answers. }
  all: rewrite (Hno a Ha) in Hp; discriminate Hp.
Qed.

End PaywallCoverage.

Section MethodsCoverage.
Context {S E J : Type} `{TokenStore S} `{Clock E} `{Fetcher E} `{LnBot E}
  `{JsonBody J}.

(** X26.  Each JSON method of the client is [l402Fetch] under its own
    HTTP method: every request of a run of [get], [post], [put], [patch]
    or [delete] carries that method, whatever method the caller's [init]
    names, with the caller's body and headers ([Authorization] apart);
    the run does what [l402Fetch] does for that request, and its outcome
    is the parsed body of the response that [l402Fetch] returns, or the
    error that [l402Fetch] or the parsing throws. *)
Theorem json_methods_send_their_own_method options f method url init
    (st : ClientState S E) (out : Result J) st' log :
  (f, method) ∈ [(Methods.get options, "GET"); (Methods.post options, "POST");
                 (Methods.put options, "PUT"); (Methods.patch options, "PATCH");
                 (Methods.delete options, "DELETE")] ->
  f url init st = (out, st', log) ->
  (exists out0,
      l402Fetch options url (Methods.with_method init method) st = (out0, st', log)
      /\ out = match out0 with
               | Ok res =>
                   match Response_json res with
                   | inl err => Throw err
                   | inr v => Ok v
                   end
               | Throw err => Throw err
               end)
  /\ forall u i r, (u, i, r) ∈ requests log ->
       u = url
       /\ exists ri,
            i = Some ri
            /\ init_method ri = Some method
            /\ init_body ri = init ≫= init_body
            /\ forall n, JsString.toLowerCase n <> "authorization" ->
                 Headers_get n (init_headers ri) = Headers_get n (Headers_new init).
Proof.
  intros Hf Hrun.
  assert (Hjson : Methods.jsonMethod options method url init st = (out, st', log)).
  { in_log Hf; by simplify_eq. }
  clear Hf Hrun. unfold Methods.jsonMethod, bind, Methods.json in Hjson.
  destruct (l402Fetch options url (Methods.with_method init method) st)
    as [[out0 st0] log0] eqn:Hrun.
  assert (Hout : st0 = st' /\ log0 = log
                 /\ out = match out0 with
                          | Ok res =>
                              match Response_json res with
                              | inl err => Throw err
                              | inr v => Ok v
                              end
                          | Throw err => Throw err
                          end).
  { destruct out0 as [res|err]; simplify_eq; [|done].
    by rewrite app_nil_r. }
  destruct Hout as (-> & -> & ->). split; [by eexists|].
  destruct (l402Fetch_requests _ _ _ _ _ _ _ Hrun) as [_ Hshape].
  intros u i r Hin. destruct (Hshape u i r Hin) as [-> Hi]. split; [done|].
  assert (Hmethod : exists r0,
             Methods.with_method init method = Some r0
             /\ init_method r0 = Some method
             /\ init_body r0 = init ≫= init_body
             /\ Headers_new (Some r0) = Headers_new init).
  { eexists. split; [reflexivity|]. by destruct init. }
  destruct Hmethod as (r0 & Hr0 & Hm & Hb & Hh).
  destruct Hi as [->|[a ->]].
  - exists r0. cbn [Headers_new] in Hh. split_and!; [done..|].
    intros n _. by rewrite Hh.
  - destruct (with_authorization_carries (Methods.with_method init method) a)
      as (ri & -> & _ & Hm' & Hb' & Hh').
    exists ri. rewrite Hr0 in *. cbn [mbind option_bind] in *.
    split_and!; [done|congruence|congruence|].
    intros n Hn. by rewrite Hh', Hh.
Qed.

End MethodsCoverage.

(** ** The further properties at concrete inputs *)

Section CoverageWitnesses.
Import Mock.




(** X9 at a run that pays: the store is the same afterwards. *)
Lemma no_store_never_caches_witness :
  let st : ClientState (ResolvedStore NoStore) Env :=
    client no_options (resolveStore (Some store_none))
      (script 0 [challenge402 5; ok200] [settled 5]) in
  let run := l402Fetch no_options URL_PREMIUM None st in
  payer_calls run.2 = [(wwwAuth, inr (settled 5))]
  /\ st_store run.1.2 = st_store st.
Proof.
  intros st run. split; [vm_compute; reflexivity|].
  apply (no_store_never_caches no_options URL_PREMIUM None st
           run.1.1 run.1.2 run.2 eq_refl (run_eta run)).
Defined.

(** X11 at a payment of 60 against a budget of 100. *)
Lemma run_keeps_budget_within_limit_witness :
  let options := mkOptions None (Some 100) None in
  let st := fresh_client options (script 0 [challenge402 60; ok200] [settled 60]) in
  let run := l402Fetch options URL_PREMIUM None st in
  0 <= spent (st_budget run.1.2) <= 100.
Proof.
  intros options st run.
  apply (run_keeps_budget_within_limit options URL_PREMIUM None st
           run.1.1 run.1.2 run.2 100).
  - reflexivity.
  - change (0 <= 0 <= 100). lia.
  - apply run_eta.
  - intros res p auth Hpay _. vm_compute in Hpay. injection Hpay as <- <-.
    change (0 <= 60 <= 60). lia.
Defined.

(** X12 at a free resource. *)
Lemma uncached_request_passes_through_witness :
  (l402Fetch no_options URL_PREMIUM None
     (fresh_client no_options (script 0 [ok200] []))).1.1 = Ok ok200.
Proof.
  rewrite (uncached_request_passes_through no_options URL_PREMIUM None
             (fresh_client no_options (script 0 [ok200] []))
             (mkMemoryStore ∅) (inr ok200) (script 0 [] [])).
  - reflexivity.
  - reflexivity.
  - reflexivity.
  - intros res [= <-]. discriminate.
Defined.

(** X13 at a 402 response without challenge header. *)
Lemma unreadable_challenge_is_a_protocol_error_witness :
  let st := fresh_client no_options (script 0 [jsonResponse 402 None []] []) in
  (l402Fetch no_options URL_PREMIUM None st).1.1
  = Throw (mkError L402Error "402 response missing WWW-Authenticate header").
Proof.
  intros st. pose (step1 := cachedRequest URL_PREMIUM None st).
  destruct (unreadable_challenge_is_a_protocol_error no_options URL_PREMIUM None
              st step1.1.2 step1.2 (jsonResponse 402 None [])
              (globalThis_fetch URL_PREMIUM None (st_env step1.1.2)).2)
    as (msg & Hrun & Hmissing & _).
  - vm_compute. reflexivity.
  - vm_compute. reflexivity.
  - reflexivity.
  - intros w ch (_ & Hhdr & _). vm_compute in Hhdr. discriminate Hhdr.
  - rewrite Hrun. cbn [fst]. by rewrite Hmissing.
Defined.

(** X14 at a payer that reports a failure. *)
Lemma unsettled_payment_is_not_recorded_witness :
  let st := fresh_client no_options (script 0 [challenge402 5] [failed]) in
  let run := l402Fetch no_options URL_PREMIUM None st in
  after_pay run.2 = []
  /\ (forall u tok, EvStoreSet u tok ∉ run.2)
  /\ st_budget run.1.2 = st_budget st.
Proof.
  intros st run.
  destruct (unsettled_payment_is_not_recorded no_options URL_PREMIUM None st
              run.1.1 run.1.2 run.2 wwwAuth failed)
    as (_ & Hafter & Hset & _ & Hbudget).
  - apply run_eta.
  - vm_compute. constructor.
  - intros auth (Hstatus & _). by apply Hstatus.
  - split_and!; [exact Hafter|exact Hset|by apply Hbudget].
Defined.

(** X15 at a network that rejects the first request. *)
Lemma platform_errors_propagate_unchanged_witness :
  let st := fresh_client no_options (script 0 [] []) in
  (l402Fetch no_options URL_PREMIUM None st).1.1 = Throw exhausted.
Proof.
  intros st. set (run := l402Fetch no_options URL_PREMIUM None st).
  destruct (platform_errors_propagate_unchanged no_options URL_PREMIUM None st
              run.1.1 run.1.2 run.2 (EvFetch URL_PREMIUM None (inl exhausted)) exhausted)
    as [Hout _].
  - apply run_eta.
  - vm_compute. constructor. constructor.
  - left. by eexists _, _.
  - exact Hout.
Defined.


(** X17 at a run that pays and retries. *)
Lemma requests_are_the_callers_request_witness :
  (length (requests paid_run.2) <= 3)%nat
  /\ forall u i r, (u, i, r) ∈ requests paid_run.2 -> u = URL_PREMIUM.
Proof.
  destruct (requests_are_the_callers_request no_options URL_PREMIUM None
              (fresh_client no_options
                 (script 0 [challenge402 5; ok200; ok200] [settled 5]))
              paid_run.1.1 paid_run.1.2 paid_run.2 (run_eta paid_run))
    as [Hlen Hshape].
  split; [exact Hlen|]. intros u i r Hin. by destruct (Hshape u i r Hin).
Defined.

(** X18 at the token that the run of the test suite stores. *)
Lemma stored_token_comes_from_the_payment_witness :
  exists www ch res p,
    payer_calls paid_run.2 = [(www, inr p)]
    /\ payment_of paid_run.2 = Some (res, p)
    /\ challenge_of res www ch
    /\ settled_with p "L402 mac:pre".
Proof.
  destruct (stored_token_comes_from_the_payment no_options URL_PREMIUM None
              (fresh_client no_options
                 (script 0 [challenge402 5; ok200; ok200] [settled 5]))
              paid_run.1.1 paid_run.1.2 paid_run.2 URL_PREMIUM (cachedToken None))
    as (_ & www & ch & res & p & Hcalls & Hpay & Hch & Hsettled & _).
  - apply run_eta.
  - vm_compute. do 4 constructor.
  - by exists www, ch, res, p.
Defined.

(** X19 at the payment of the run of the test suite. *)
Lemma payer_is_invoked_only_within_limits_witness :
  exists res ch,
    challenge_of res wwwAuth ch /\ price_hint res <= 1000.
Proof.
  destruct (payer_is_invoked_only_within_limits no_options URL_PREMIUM None
              (fresh_client no_options
                 (script 0 [challenge402 5; ok200; ok200] [settled 5]))
              paid_run.1.1 paid_run.1.2 paid_run.2 wwwAuth (inr (settled 5)))
    as (res & ch & pre & rest & _ & _ & Hch & Hprice & _).
  - apply run_eta.
  - vm_compute. constructor.
  - by exists res, ch.
Defined.

(** X20 at a credential that the verifier accepts. *)
Lemma valid_credential_reaches_the_handler_witness :
  (Paywall.paywall (fixed_price 5)
     (request_with "L402 mac:pre", gate_script [inr verified] [])).2
  = [Paywall.EvVerify "L402 mac:pre" (inr verified); Paywall.EvNext None].
Proof.
  rewrite (valid_credential_reaches_the_handler (fixed_price 5)
             (request_with "L402 mac:pre") (gate_script [inr verified] [])
             "L402 mac:pre" verified (gate_script [] []) (gate_script [] []));
    reflexivity.
Defined.

(** X21 at a handler that throws: the client is answered 402. *)
Lemma handler_error_leads_to_a_challenge_witness :
  let e := mkStack (gate_script [inr verified] [inr minted]) (Some handler_error) in
  let run := Paywall.paywall (stack_price 5) (request_with "L402 mac:pre", e) in
  run.1.1 = Ok tt
  /\ exists body,
       run.2 = [Paywall.EvVerify "L402 mac:pre" (inr verified);
                Paywall.EvNext None;
                Paywall.EvCreateChallenge
                  (mkChallengeRequest 5 None None None) (inr minted);
                Paywall.EvRespond 402 ("WWW-Authenticate", wwwAuth) body].
Proof.
  intros e run. subst run.
  rewrite (handler_error_leads_to_a_challenge (stack_price 5)
             (request_with "L402 mac:pre") e "L402 mac:pre" verified
             (mkStack (gate_script [] [inr minted]) (Some handler_error))
             handler_error
             (mkStack (gate_script [] [inr minted]) (Some handler_error)));
    [|reflexivity..].
  split; [reflexivity|]. eexists. vm_compute. reflexivity.
Defined.

(** X22 at a credential that the verifier rejects. *)
Lemma verifier_is_consulted_only_for_L402_credentials_witness :
  let run := Paywall.paywall (fixed_price 5)
               (request_with "L402 mac:pre",
                gate_script [inl network_error] [inr minted]) in
  exists rest,
    run.2 = Paywall.EvVerify "L402 mac:pre" (inl network_error) :: rest
    /\ forall a r, Paywall.EvVerify a r ∉ rest.
Proof.
  intros run.
  destruct (verifier_is_consulted_only_for_L402_credentials (fixed_price 5)
              (request_with "L402 mac:pre")
              (gate_script [inl network_error] [inr minted])
              run.1.1 run.1.2 run.2 (run_eta run))
    as [Hverify _].
  destruct (Hverify "L402 mac:pre" (inl network_error)) as (_ & _ & _ & Hrest).
  - vm_compute. constructor.
  - exact Hrest.
Defined.

(** X23 at a request with another scheme: the response carries the
    minted challenge and the fixed price. *)
Lemma response_is_the_minted_challenge_witness :
  let run := Paywall.paywall (fixed_price 5)
               (request_with "Bearer abc", gate_script [] [inr minted]) in
  let body :=
    {| Paywall.pr_type := "payment_required";
       Paywall.pr_title := "Payment Required";
       Paywall.pr_detail :=
         "Pay the included Lightning invoice to access this resource.";
       Paywall.pr_invoice := "inv";
       Paywall.pr_macaroon := "mac";
       Paywall.pr_price := 5;
       Paywall.pr_unit := "satoshis";
       Paywall.pr_description := None |} in
  run.1.1 = Ok tt
  /\ exists pre ch,
       run.2 = (pre ++ [Paywall.EvCreateChallenge
                          (mkChallengeRequest 5 None None None) (inr ch);
                        Paywall.EvRespond 402 ("WWW-Authenticate", wwwAuth) body])%list.
Proof.
  intros run body.
  destruct (response_is_the_minted_challenge (fixed_price 5)
              (request_with "Bearer abc") (gate_script [] [inr minted])
              run.1.1 run.1.2 run.2 402 ("WWW-Authenticate", wwwAuth) body)
    as (_ & Hout & pre & ch & Hlog & _).
  - apply run_eta.
  - vm_compute. do 2 constructor.
  - split; [exact Hout|]. by exists pre, ch.
Defined.

(** X24 at an SDK that cannot mint. *)
Lemma mint_failure_goes_to_the_error_handler_witness :
  let run := Paywall.paywall (fixed_price 5)
               (request_with "Bearer abc", gate_script [] [inl network_error]) in
  exists pre,
    run.2 = (pre ++ [Paywall.EvCreateChallenge
                       (mkChallengeRequest 5 None None None) (inl network_error);
                     Paywall.EvNext (Some network_error)])%list.
Proof.
  intros run.
  destruct (mint_failure_goes_to_the_error_handler (fixed_price 5)
              (request_with "Bearer abc") (gate_script [] [inl network_error])
              run.1.1 run.1.2 run.2
              (mkChallengeRequest 5 None None None) network_error)
    as (Hlast & _).
  - apply run_eta.
  - vm_compute. constructor.
  - exact Hlast.
Defined.

(** X25 at a pricing function that throws. *)
Lemma pricing_error_rejects_the_middleware_witness :
  Paywall.paywall failing_price (request_with "Bearer abc", gate_script [] [inr minted])
  = (Throw network_error,
     (request_with "Bearer abc", gate_script [] [inr minted]), []).
Proof.
  apply (pricing_error_rejects_the_middleware failing_price
           (request_with "Bearer abc") (gate_script [] [inr minted])
           (fun _ e => (inl network_error, e)) network_error).
  - intros a Ha. vm_compute in Ha. injection Ha as <-. reflexivity.
  - reflexivity.
  - reflexivity.
Defined.

(** X26 at [get] called with an [init] that names another method. *)
Lemma json_methods_send_their_own_method_witness :
  let init := Some {| init_method := Some "POST"; init_headers := ∅;
                      init_body := Some "{}" |} in
  let st := fresh_client no_options (script 0 [ok200] []) in
  let run : Result string * _ * _ := Methods.get no_options URL_PREMIUM init st in
  exists i ri,
    requests run.2 = [(URL_PREMIUM, i, inr ok200)]
    /\ i = Some ri /\ init_method ri = Some "GET" /\ init_body ri = Some "{}".
Proof.
  intros init st run.
  destruct (json_methods_send_their_own_method no_options
              (Methods.get no_options) "GET" URL_PREMIUM init st
              run.1.1 run.1.2 run.2) as [_ Hshape].
  - constructor.
  - apply run_eta.
  - destruct (Hshape URL_PREMIUM (Methods.with_method init "GET") (inr ok200))
      as (_ & ri & Hi & Hm & Hb & _); [vm_compute; constructor|].
    exists (Methods.with_method init "GET"), ri. split; [vm_compute; reflexivity|].
    by split_and!.
Defined.

End CoverageWitnesses.
